(** * Notification queue manager of [@complete/react-toast]

    A shallow embedding of [ToastProvider] (packages/react-toast/src/context.tsx)
    together with the host timer queue it runs on, and the properties of the
    queue manager stated in the specification.

    Modelling conventions.
    - React state ([toasts]) and the [timersRef] map are fields of one
      explicit [State]; every command is a function [State -> State].
      A [setToasts] updater is applied at the point of the call, in program
      order.
    - The host event loop is one queue of pending timeouts, kept in firing
      order (by due time, ties in scheduling order).  [setTimeout] appends to
      it, [clearTimeout] deletes from it, and [tick] runs the next timeout.
    - Opaque payloads (message, icon, data) and callbacks are tokens ([nat]).
      Invoking [onClose] appends to the [closed] log.
    - Durations and time stamps are integer milliseconds. *)

From stdpp Require Import gmap strings list fin_maps numbers pretty.
From Stdlib Require Import ZArith Lia.

Open Scope Z_scope.

(** ** Types (types.ts) *)

Inductive ToastType := success | error | warning | info | loading.
Inductive ToastPosition :=
  top_left | top_center | top_right | bottom_left | bottom_center | bottom_right.
Inductive ToastVariant := filled | outlined | minimal.

#[global] Instance ToastType_eq_dec : EqDecision ToastType.
Proof. solve_decision. Defined.
#[global] Instance ToastPosition_eq_dec : EqDecision ToastPosition.
Proof. solve_decision. Defined.
#[global] Instance ToastVariant_eq_dec : EqDecision ToastVariant.
Proof. solve_decision. Defined.

(** Opaque [ReactNode] / [Record<string, any>] payloads and [() => void]
    callbacks. *)
Definition Node := nat.
Definition Callback := nat.

(** [ToastOptions]: every field is optional; [None] is an absent property
    (a property present with the value [undefined] is not modelled). *)
Record ToastOptions := mkOptions {
  opt_type : option ToastType;
  opt_duration : option Z;
  opt_dismissible : option bool;
  opt_position : option ToastPosition;
  opt_variant : option ToastVariant;
  opt_icon : option Node;
  opt_action : option (string * Callback);
  opt_data : option Node;
  opt_onClose : option Callback;
  opt_id : option string
}.

Definition no_options : ToastOptions :=
  mkOptions None None None None None None None None None None.

(** [Required<ToastConfig>]. *)
Record ToastConfig := mkConfig {
  defaultDuration : Z;
  defaultPosition : ToastPosition;
  defaultVariant : ToastVariant;
  maxToasts : Z;
  pauseOnHover : bool;
  pauseOnFocusLoss : bool;
  gap : Z;
  offset : Z * Z
}.

Definition DEFAULT_CONFIG : ToastConfig :=
  mkConfig 4000 top_right filled 5 true true 8 (16, 16).

(** [Toast].  [toast_serial] is a ghost field: the number of the [createToast]
    call that built the entry.  No operation reads it; it names the entry in
    the statements about its [onClose] callback. *)
Record Toast := mkToast {
  toast_id : string;
  toast_message : Node;
  toast_type : ToastType;
  toast_duration : Z;
  toast_dismissible : bool;
  toast_position : ToastPosition;
  toast_variant : ToastVariant;
  toast_icon : option Node;
  toast_action : option (string * Callback);
  toast_data : option Node;
  toast_onClose : option Callback;
  toast_createdAt : Z;
  toast_visible : bool;
  toast_removing : bool;
  toast_serial : nat
}.

(** ** The host timer queue *)

(** What a pending timeout does when it fires: [Expiry] is the callback of
    [setTimer] ([dismiss(id)]), [Purge] the callback scheduled by [dismiss]
    (call [onClose], drop the entry). *)
Inductive TimerKind := Expiry | Purge.

#[global] Instance TimerKind_eq_dec : EqDecision TimerKind.
Proof. solve_decision. Defined.

(** A pending timeout.  [timer_handle] is the handle [setTimeout] returned
    when the caller kept it ([setTimer] stores it in [timersRef]); [dismiss]
    drops the handle of its purge timeout, so that entry carries [None] and no
    [clearTimeout] can ever name it. *)
Record Timer := mkTimer {
  timer_handle : option nat;
  timer_due : Z;
  timer_kind : TimerKind;
  timer_id : string
}.

#[global] Instance Timer_eq_dec : EqDecision Timer.
Proof. solve_decision. Defined.

(** One [onClose] invocation: the serial of the entry and the callback run. *)
Definition CloseEvent := (nat * Callback)%type.

Record State := mkState {
  toasts : list Toast;
  timersRef : gmap string nat;
  queue : list Timer;
  clock : Z;
  nextHandle : nat;
  nextSerial : nat;
  closed : list CloseEvent
}.

Definition init : State := mkState [] ∅ [] 0 1%nat 0%nat [].

Definition set_toasts (l : list Toast) (s : State) : State :=
  mkState l (timersRef s) (queue s) (clock s) (nextHandle s) (nextSerial s) (closed s).
Definition set_queue (q : list Timer) (s : State) : State :=
  mkState (toasts s) (timersRef s) q (clock s) (nextHandle s) (nextSerial s) (closed s).
Definition set_timersRef (m : gmap string nat) (s : State) : State :=
  mkState (toasts s) m (queue s) (clock s) (nextHandle s) (nextSerial s) (closed s).
Definition set_clock (c : Z) (s : State) : State :=
  mkState (toasts s) (timersRef s) (queue s) c (nextHandle s) (nextSerial s) (closed s).
Definition set_closed (l : list CloseEvent) (s : State) : State :=
  mkState (toasts s) (timersRef s) (queue s) (clock s) (nextHandle s) (nextSerial s) l.

(** Stable insertion in firing order: after every pending timeout that is due
    no later. *)
Fixpoint enqueue (t : Timer) (q : list Timer) : list Timer :=
  match q with
  | [] => [t]
  | u :: q' => if timer_due u <=? timer_due t then u :: enqueue t q' else t :: q
  end.

(** [clearTimeout(handle)]. *)
Definition clearTimeout (h : nat) (q : list Timer) : list Timer :=
  filter (λ t, timer_handle t ≠ Some h) q.

(** [setTimeout(cb, delay)] whose handle is kept; returns the handle. *)
Definition setTimeout_kept (k : TimerKind) (i : string) (delay : Z) (s : State)
  : nat * State :=
  let h := nextHandle s in
  (h, mkState (toasts s) (timersRef s)
        (enqueue (mkTimer (Some h) (clock s + delay) k i) (queue s))
        (clock s) (S h) (nextSerial s) (closed s)).

(** [setTimeout(cb, delay)] whose handle is dropped. *)
Definition setTimeout_dropped (k : TimerKind) (i : string) (delay : Z) (s : State)
  : State :=
  set_queue (enqueue (mkTimer None (clock s + delay) k i) (queue s)) s.

(** ** The provider (context.tsx) *)

(** [Array.prototype.slice(start, end)]: negative indices count from the end,
    all indices are clamped to the array. *)
Definition slice_index (len i : Z) : Z :=
  if i <? 0 then Z.max (len + i) 0 else Z.min i len.

Definition slice {A} (l : list A) (start : Z) (end_ : option Z) : list A :=
  let len := Z.of_nat (length l) in
  let k := slice_index len start in
  let f := match end_ with None => len | Some e => slice_index len e end in
  take (Z.to_nat (f - k)) (drop (Z.to_nat k) l).

(** [generateToastId]: [`toast-${Date.now()}-${random}`]; the random suffix
    [rnd] is an input of the model. *)
Definition generateToastId (now : Z) (rnd : string) : string :=
  ("toast-" +:+ pretty now +:+ "-" +:+ rnd)%string.

(** [if (timer)]: a handle is always truthy (a [Timeout] object under Node, a
    positive number in a browser); the model numbers handles from 1. *)
Definition clearTimer (i : string) (s : State) : State :=
  match timersRef s !! i with
  | Some h => set_timersRef (delete i (timersRef s)) (set_queue (clearTimeout h (queue s)) s)
  | None => s
  end.

(** The callback passed to [setTimeout] is [() => dismiss(id)]: the [Expiry]
    kind of the queue entry. *)
Definition setTimer (i : string) (duration : Z) (s : State) : State :=
  if duration <=? 0 then s
  else
    let s1 := clearTimer i s in
    let '(h, s2) := setTimeout_kept Expiry i duration s1 in
    set_timersRef (<[i := h]> (timersRef s2)) s2.

Section Provider.

Variable config : ToastConfig.

(** [options.id || generateToastId()]: the empty string is falsy. *)
Definition option_id (options : ToastOptions) (now : Z) (rnd : string) : string :=
  match opt_id options with
  | Some i => if decide (i = "") then generateToastId now rnd else i
  | None => generateToastId now rnd
  end.

(** [options.duration ?? config.defaultDuration] *)
Definition option_duration (options : ToastOptions) : Z :=
  default (defaultDuration config) (opt_duration options).

Definition new_toast (message : Node) (options : ToastOptions) (rnd : string)
    (s : State) : Toast :=
  {| toast_id := option_id options (clock s) rnd;
     toast_message := message;
     toast_type := default info (opt_type options);
     toast_duration := option_duration options;
     toast_dismissible := default true (opt_dismissible options);
     toast_position := default (defaultPosition config) (opt_position options);
     toast_variant := default (defaultVariant config) (opt_variant options);
     toast_icon := opt_icon options;
     toast_action := opt_action options;
     toast_data := opt_data options;
     toast_onClose := opt_onClose options;
     toast_createdAt := clock s;
     toast_visible := true;
     toast_removing := false;
     toast_serial := nextSerial s |}.

(** Ghost step: the serial of the entry just built is used up. *)
Definition bump_serial (s : State) : State :=
  mkState (toasts s) (timersRef s) (queue s) (clock s) (nextHandle s)
    (S (nextSerial s)) (closed s).

(** The [setToasts] updater of [createToast]. *)
Definition insert_toast (toast : Toast) (s : State) : State :=
  let prev := toasts s in
  let samePosition := filter (λ t, toast_position t = toast_position toast) prev in
  let otherPositions := filter (λ t, toast_position t ≠ toast_position toast) prev in
  let newPositionToasts := toast :: samePosition in
  if Z.of_nat (length newPositionToasts) >? maxToasts config then
    let toRemove := slice newPositionToasts (maxToasts config) None in
    let s1 := foldl (λ acc t, clearTimer (toast_id t) acc) s toRemove in
    set_toasts (slice newPositionToasts 0 (Some (maxToasts config)) ++ otherPositions) s1
  else
    set_toasts (newPositionToasts ++ otherPositions) s.

Definition createToast (message : Node) (options : ToastOptions) (rnd : string)
    (s : State) : string * State :=
  let toast := new_toast message options rnd s in
  let i := toast_id toast in
  let duration := toast_duration toast in
  let s1 := insert_toast toast (bump_serial s) in
  let s2 := if duration >? 0 then setTimer i duration s1 else s1 in
  (i, s2).

Definition mark_removing (t : Toast) : Toast :=
  mkToast (toast_id t) (toast_message t) (toast_type t) (toast_duration t)
    (toast_dismissible t) (toast_position t) (toast_variant t) (toast_icon t)
    (toast_action t) (toast_data t) (toast_onClose t) (toast_createdAt t)
    (toast_visible t) true (toast_serial t).

(** The callback [dismiss] schedules: look the entry up by id, call its
    [onClose], drop every entry of that id. *)
Definition purge (i : string) (s : State) : State :=
  let prev := toasts s in
  let s1 :=
    match find (λ t, bool_decide (toast_id t = i)) prev with
    | Some toast =>
        match toast_onClose toast with
        | Some cb => set_closed (closed s ++ [(toast_serial toast, cb)]) s
        | None => s
        end
    | None => s
    end in
  set_toasts (filter (λ t, toast_id t ≠ i) prev) s1.

Definition dismiss (i : string) (s : State) : State :=
  let s1 := clearTimer i s in
  let s2 := set_toasts
              ((λ t, if decide (toast_id t = i) then mark_removing t else t)
                 <$> toasts s1) s1 in
  setTimeout_dropped Purge i 300 s2.

(** [onClose] calls of [dismissAll], in list order. *)
Definition close_events (l : list Toast) : list CloseEvent :=
  omap (λ t, match toast_onClose t with
             | Some cb => Some (toast_serial t, cb)
             | None => None
             end) l.

Definition dismissAll (s : State) : State :=
  let q := foldr (λ kv acc, clearTimeout (snd kv) acc) (queue s)
             (map_to_list (timersRef s)) in
  let s1 := set_timersRef ∅ (set_queue q s) in
  set_toasts [] (set_closed (closed s1 ++ close_events (toasts s1)) s1).

(** [{ ...toast, message, ...options, duration: options.duration ?? toast.duration }] *)
Definition merge (t : Toast) (message : Node) (options : ToastOptions) : Toast :=
  {| toast_id := default (toast_id t) (opt_id options);
     toast_message := message;
     toast_type := default (toast_type t) (opt_type options);
     toast_duration := default (toast_duration t) (opt_duration options);
     toast_dismissible := default (toast_dismissible t) (opt_dismissible options);
     toast_position := default (toast_position t) (opt_position options);
     toast_variant := default (toast_variant t) (opt_variant options);
     toast_icon := from_option Some (toast_icon t) (opt_icon options);
     toast_action := from_option Some (toast_action t) (opt_action options);
     toast_data := from_option Some (toast_data t) (opt_data options);
     toast_onClose := from_option Some (toast_onClose t) (opt_onClose options);
     toast_createdAt := toast_createdAt t;
     toast_visible := toast_visible t;
     toast_removing := toast_removing t;
     toast_serial := toast_serial t |}.

Definition update (i : string) (message : Node) (options : ToastOptions)
    (s : State) : State :=
  let s1 := set_toasts
              ((λ t, if decide (toast_id t = i) then merge t message options else t)
                 <$> toasts s) s in
  match opt_duration options with
  | Some d => setTimer i d s1
  | None => s1
  end.

(** ** Running the timer queue *)

Definition fire (t : Timer) (s : State) : State :=
  match timer_kind t with
  | Expiry => dismiss (timer_id t) s
  | Purge => purge (timer_id t) s
  end.

(** Run the next pending timeout; the clock moves to its due time. *)
Definition tick (s : State) : State :=
  match queue s with
  | [] => s
  | t :: q => fire t (set_clock (Z.max (clock s) (timer_due t)) (set_queue q s))
  end.

(** [lim = Some z]: timeouts due by [z]; [lim = None]: all of them. *)
Definition due_by (lim : option Z) (t : Timer) : bool :=
  match lim with
  | Some z => timer_due t <=? z
  | None => true
  end.

Fixpoint run_due (fuel : nat) (lim : option Z) (s : State) : State :=
  match fuel with
  | O => s
  | S n =>
      match queue s with
      | [] => s
      | t :: _ => if due_by lim t then run_due n lim (tick s) else s
      end
  end.

(** An expiry timeout schedules one purge timeout when it fires, a purge
    timeout schedules nothing: [weight] bounds the number of firings. *)
Definition weight (q : list Timer) : nat :=
  sum_list_with (λ t, match timer_kind t with Expiry => 2 | Purge => 1 end)%nat q.

Definition run (lim : option Z) (s : State) : State :=
  run_due (weight (queue s)) lim s.

(** Let [dt] milliseconds pass ([vi.advanceTimersByTime]). *)
Definition advance (dt : Z) (s : State) : State :=
  let target := clock s + dt in
  let s' := run (Some target) s in
  set_clock (Z.max (clock s') target) s'.

(** Run every pending timeout ([vi.runAllTimers]). *)
Definition flush (s : State) : State := run None s.

End Provider.

(** ** Reachable states *)

(** What can happen to a provider: a command of the API, the next timeout
    firing, or time passing. *)
Section Machine.

Variable config : ToastConfig.

Inductive Event :=
| ECreate (message : Node) (options : ToastOptions) (rnd : string)
| EUpdate (i : string) (message : Node) (options : ToastOptions)
| EDismiss (i : string)
| EDismissAll
| ETick
| EAdvance (dt : Z).

Definition apply (e : Event) (s : State) : State :=
  match e with
  | ECreate m o rnd => snd (createToast config m o rnd s)
  | EUpdate i m o => update i m o s
  | EDismiss i => dismiss i s
  | EDismissAll => dismissAll s
  | ETick => tick s
  | EAdvance dt => advance dt s
  end.

Definition apply_all (es : list Event) (s : State) : State :=
  foldl (λ acc e, apply e acc) s es.

Inductive reachable : State → Prop :=
| reach_init : reachable init
| reach_step s e : reachable s → reachable (apply e s).

End Machine.

Definition with_duration (d : Z) : ToastOptions :=
  mkOptions None (Some d) None None None None None None None None.

(** ** Well-formed states *)

(** The queue is in firing order. *)
Fixpoint sorted (q : list Timer) : Prop :=
  match q with
  | [] => True
  | t :: q' => Forall (λ u, timer_due t ≤ timer_due u) q' ∧ sorted q'
  end.

(** How [timersRef] and the queue fit together: every pending expiry timeout
    is the one registered under its id, purge timeouts are anonymous, a
    registered handle names timeouts of its own id only, and handles are
    never reused. *)
Record timers_ok (s : State) : Prop := {
  ok_sorted : sorted (queue s);
  ok_clock : Forall (λ t, clock s ≤ timer_due t) (queue s);
  ok_tracked :
    Forall (λ t, match timer_kind t with
                 | Expiry => ∃ h, timer_handle t = Some h ∧
                                  timersRef s !! timer_id t = Some h
                 | Purge => timer_handle t = None
                 end) (queue s);
  ok_owner : ∀ i h t, timersRef s !! i = Some h → t ∈ queue s →
                      timer_handle t = Some h → timer_id t = i;
  ok_handles : NoDup (omap timer_handle (queue s));
  ok_fresh_queue :
    Forall (λ t, ∀ h, timer_handle t = Some h → (h < nextHandle s)%nat) (queue s);
  ok_fresh_ref : ∀ i h, timersRef s !! i = Some h → (h < nextHandle s)%nat
}.

(** Entries and the [onClose] log: serials are those handed out so far, no
    two live entries share one, and a logged entry is gone from the list. *)
Record entries_ok (s : State) : Prop := {
  ok_serial : Forall (λ t, (toast_serial t < nextSerial s)%nat) (toasts s);
  ok_serial_nodup : NoDup (toast_serial <$> toasts s);
  ok_closed_lt : Forall (λ e : CloseEvent, (e.1 < nextSerial s)%nat) (closed s);
  ok_closed_gone : ∀ t e, t ∈ toasts s → e ∈ closed s → e.1 ≠ toast_serial t;
  ok_closed_nodup : NoDup (fst <$> closed s)
}.

Definition wf (s : State) : Prop := timers_ok s ∧ entries_ok s.


(** ** Observations used in the statements *)

(** Ids of the published list. *)
Definition ids (s : State) : list string := toast_id <$> toasts s.

(** Pending timeouts of kind [k] for id [i]. *)
Definition pending (k : TimerKind) (i : string) (s : State) : list Timer :=
  filter (λ t, timer_kind t = k ∧ timer_id t = i) (queue s).

(** How often [onClose] ran for the entry with serial [u]. *)
Definition close_count (u : nat) (s : State) : nat :=
  length (filter (λ e : CloseEvent, e.1 = u) (closed s)).

(** An event that cannot introduce a second entry with a live id: a create
    whose id (supplied or generated) is not in the list, an update that
    leaves the id alone. *)
Definition keeps_ids_apart (e : Event) (s : State) : Prop :=
  match e with
  | ECreate _ o rnd => option_id o (clock s) rnd ∉ ids s
  | EUpdate _ _ o => opt_id o = None
  | _ => True
  end.

Fixpoint all_keep_ids_apart (config : ToastConfig) (es : list Event) (s : State)
  : Prop :=
  match es with
  | [] => True
  | e :: es' => keeps_ids_apart e s ∧ all_keep_ids_apart config es' (apply config e s)
  end.

(** Options of the sample entry ["a"]: one second, an [onClose] callback. *)
Definition sample_options : ToastOptions :=
  mkOptions None (Some 1000) None None None None None None (Some 9%nat) (Some "a"%string).

Definition sample_created : State :=
  apply DEFAULT_CONFIG (ECreate 7%nat sample_options "r") init.


Definition sample_dismissed : State := apply DEFAULT_CONFIG (EDismiss "a") sample_created.


(** The entries of one position slot, in list order. *)
Definition bucket (p : ToastPosition) (s : State) : list Toast :=
  filter (λ t, toast_position t = p) (toasts s).

(** One [createToast] call: message, options, random suffix. *)
Definition CreateCall := (Node * ToastOptions * string)%type.

Definition call_position (config : ToastConfig) (c : CreateCall) : ToastPosition :=
  default (defaultPosition config) (opt_position c.1.2).

(** A run of [createToast] calls: the entries built, oldest first, and the
    state reached. *)
Fixpoint creates (config : ToastConfig) (cs : list CreateCall) (s : State)
  : list Toast * State :=
  match cs with
  | [] => ([], s)
  | c :: cs' =>
      let r := creates config cs' (createToast config c.1.1 c.1.2 c.2 s).2 in
      (new_toast config c.1.1 c.1.2 c.2 s :: r.1, r.2)
  end.


(** Six creates into the default slot, ids ["t1"] to ["t6"], each with its
    own [onClose]. *)
Definition numbered_call (k : nat) (i : string) : CreateCall :=
  (k, mkOptions None None None None None None None None (Some k) (Some i), "r"%string).

Definition six_calls : list CreateCall :=
  [numbered_call 1 "t1"; numbered_call 2 "t2"; numbered_call 3 "t3";
   numbered_call 4 "t4"; numbered_call 5 "t5"; numbered_call 6 "t6"].


(** The [onClose] call of a purge, if any. *)
Definition purge_log (i : string) (l : list Toast) : list CloseEvent :=
  match find (λ t, bool_decide (toast_id t = i)) l with
  | Some t => match toast_onClose t with
              | Some cb => [(toast_serial t, cb)]
              | None => []
              end
  | None => []
  end.

(** Queues that differ by one repeated anonymous purge timeout. *)
Definition doubled (qa qb : list Timer) : Prop :=
  ∃ q1 q2 pg, timer_handle pg = None ∧ timer_kind pg = Purge ∧
              qa = q1 ++ pg :: q2 ∧ qb = q1 ++ pg :: pg :: q2.

(** States that agree on everything but a repeated purge timeout. *)
Definition one_more_purge (a b : State) : Prop :=
  toasts a = toasts b ∧ timersRef a = timersRef b ∧ clock a = clock b ∧
  nextHandle a = nextHandle b ∧ nextSerial a = nextSerial b ∧
  closed a = closed b ∧ doubled (queue a) (queue b).

(** Timeouts that do not concern id [x]. *)
Definition others (x : string) (q : list Timer) : list Timer :=
  filter (λ t, timer_id t ≠ x) q.

(** Two well-formed states without an entry of id [x] that agree on the
    list, the [onClose] log, and on every timeout and registered handle of
    the other ids. *)
Definition agree_off (x : string) (a b : State) : Prop :=
  toasts a = toasts b ∧ closed a = closed b ∧
  others x (queue a) = others x (queue b) ∧
  delete x (timersRef a) = delete x (timersRef b) ∧
  (∀ t, t ∈ toasts a → toast_id t ≠ x) ∧
  timers_ok a ∧ timers_ok b.


(** ** The life of one entry *)

(** The entry with serial [u] is the first entry of id [x] in the list, with
    the given [removing] flag and [onClose]; every entry with that serial has
    id [x]; no [onClose] call is logged for it. *)
Definition present (x : string) (u : nat) (cb : option Callback) (r : bool)
    (s : State) : Prop :=
  (∃ e, find (λ t, bool_decide (toast_id t = x)) (toasts s) = Some e ∧
        toast_serial e = u ∧ toast_removing e = r ∧ toast_onClose e = cb) ∧
  (∀ t, t ∈ toasts s → toast_serial t = u → toast_id t = x) ∧
  (∀ e : CloseEvent, e ∈ closed s → e.1 ≠ u).

(** [tm] is pending, and it is the only kind of pending timeout for [x]. *)
Definition sole_timer (x : string) (tm : Timer) (s : State) : Prop :=
  timer_id tm = x ∧ tm ∈ queue s ∧ ∀ t, t ∈ queue s → timer_id t = x → t = tm.


(** Removing: waiting for the purge timeout due at [T + 300]. *)
Definition exiting (x : string) (u : nat) (T : Z) (cb : option Callback)
    (s : State) : Prop :=
  present x u cb true s ∧ sole_timer x (mkTimer None (T + 300) Purge x) s ∧ timers_ok s.

(** Purged at [T + 300] or later: out of the list, [onClose] called once if
    there is one. *)
Definition gone (u : nat) (T : Z) (cb : option Callback) (s : State) : Prop :=
  (∀ t, t ∈ toasts s → toast_serial t ≠ u) ∧
  filter (λ e : CloseEvent, e.1 = u) (closed s) =
    match cb with Some c => [(u, c)] | None => [] end ∧
  T + 300 ≤ clock s.



Ltac split_agree :=
  unfold agree_off; split; [|split; [|split; [|split; [|split; [|split]]]]].

(** * Properties *)

(** ** Two runs of the model *)

Example demo_generated_id :
  fst (createToast DEFAULT_CONFIG 7%nat no_options "k3x9" init) = "toast-0-k3x9"%string.
Proof. vm_compute. reflexivity. Qed.

Example demo_expiry :
  let s1 := snd (createToast DEFAULT_CONFIG 7%nat (with_duration 1000) "r" init) in
  toast_removing <$> toasts (advance 999 s1) = [false] ∧
  toast_removing <$> toasts (advance 1000 s1) = [true] ∧
  toasts (advance 300 (advance 1000 s1)) = [].
Proof. vm_compute. auto. Qed.

Example demo_update_restarts_expiry :
  let o := mkOptions (Some loading) (Some 0) None None None None None None None
             (Some "job"%string) in
  let s1 := (createToast DEFAULT_CONFIG 1%nat o "r" init).2 in
  let done_ := mkOptions (Some success) (Some 500) None None None None None None None None in
  let s2 := update "job" 2%nat done_ s1 in
  queue s1 = [] ∧
  (toast_message <$> toasts s2, toast_type <$> toasts s2) = ([2%nat], [success]) ∧
  toast_removing <$> toasts (advance 500 s2) = [true] ∧
  toasts (advance 300 (advance 500 s2)) = [] ∧
  ids (flush (update "job" 2%nat no_options s1)) = ["job"%string].
Proof. vm_compute. repeat split; reflexivity. Qed.

Example demo_dismissAll :
  let mk i p cb := mkOptions None None None (Some p) None None None None (Some cb) (Some i) in
  let s := apply_all DEFAULT_CONFIG
             [ECreate 1%nat (mk "a"%string top_left 11%nat) "r";
              ECreate 2%nat (mk "b"%string top_left 12%nat) "r";
              ECreate 3%nat (mk "c"%string bottom_right 13%nat) "r";
              EDismissAll] init in
  toasts s = [] ∧ clock s = 0 ∧ queue s = [] ∧
  closed s = [(2, 13); (1, 12); (0, 11)]%nat.
Proof. vm_compute. repeat split; reflexivity. Qed.

(** ** The creators of the API (context.tsx) and [useToastWithDefaults]
    (useToast.ts) *)

Definition or_else {A} (b a : option A) : option A :=
  match b with Some _ => b | None => a end.

(** [{ ...a, ...b }] on two option objects: a property of [b] wins. *)
Definition spread (a b : ToastOptions) : ToastOptions :=
  mkOptions (or_else (opt_type b) (opt_type a))
    (or_else (opt_duration b) (opt_duration a))
    (or_else (opt_dismissible b) (opt_dismissible a))
    (or_else (opt_position b) (opt_position a))
    (or_else (opt_variant b) (opt_variant a))
    (or_else (opt_icon b) (opt_icon a))
    (or_else (opt_action b) (opt_action a))
    (or_else (opt_data b) (opt_data a))
    (or_else (opt_onClose b) (opt_onClose a))
    (or_else (opt_id b) (opt_id a)).

(** [{ ...options, type: ty }] *)
Definition with_type (ty : ToastType) (o : ToastOptions) : ToastOptions :=
  mkOptions (Some ty) (opt_duration o) (opt_dismissible o) (opt_position o)
    (opt_variant o) (opt_icon o) (opt_action o) (opt_data o) (opt_onClose o) (opt_id o).

(** The six creating members of [ToastAPI]. *)
Inductive Creator := CSuccess | CError | CWarning | CInfo | CLoading | CCustom.

Definition forced_type (c : Creator) : option ToastType :=
  match c with
  | CSuccess => Some success
  | CError => Some error
  | CWarning => Some warning
  | CInfo => Some info
  | CLoading => Some loading
  | CCustom => None
  end.

Section Api.

Variable config : ToastConfig.

Definition api_success (message : Node) (options : ToastOptions) :=
  createToast config message (with_type success options).
Definition api_error (message : Node) (options : ToastOptions) :=
  createToast config message (with_type error options).
Definition api_warning (message : Node) (options : ToastOptions) :=
  createToast config message (with_type warning options).
Definition api_info (message : Node) (options : ToastOptions) :=
  createToast config message (with_type info options).
Definition api_loading (message : Node) (options : ToastOptions) :=
  createToast config message (with_type loading options).
Definition api_custom (message : Node) (options : ToastOptions) :=
  createToast config message options.

Definition api_call (c : Creator) : Node → ToastOptions → string → State → string * State :=
  match c with
  | CSuccess => api_success
  | CError => api_error
  | CWarning => api_warning
  | CInfo => api_info
  | CLoading => api_loading
  | CCustom => api_custom
  end.

(** [useToastWithDefaults(defaultOptions)]: every creator is called with
    [{ ...defaultOptions, ...options }]; [dismiss], [dismissAll] and [update]
    are passed through. *)
Definition defaults_call (defaultOptions : ToastOptions) (c : Creator)
    (message : Node) (options : ToastOptions) : string → State → string * State :=
  api_call c message (spread defaultOptions options).

End Api.


(** The entry with serial [u] is in the list, not removing, and no timeout is
    pending for its id. *)
Definition idle (x : string) (u : nat) (cb : option Callback) (s : State) : Prop :=
  present x u cb false s ∧ ∀ t, t ∈ queue s → timer_id t ≠ x.


(** ** Invariants of single entries *)

(** From now on the entry with serial [v], if listed, is removing. *)
Definition settled (v : nat) (s : State) : Prop :=
  (v < nextSerial s)%nat ∧
  ∀ t, t ∈ toasts s → toast_serial t = v → toast_removing t = true.

(** The entry with serial [v] has left the list and no [onClose] call is
    logged for it. *)
Definition dropped (v : nat) (s : State) : Prop :=
  (v < nextSerial s)%nat ∧
  (∀ t, t ∈ toasts s → toast_serial t ≠ v) ∧
  filter (λ e : CloseEvent, e.1 = v) (closed s) = [].

(** Every entry of [s'] continues an entry of [s], with the same [onClose]. *)
Definition descends (s s' : State) : Prop :=
  ∀ t', t' ∈ toasts s' →
    ∃ t, t ∈ toasts s ∧ toast_serial t = toast_serial t' ∧
         toast_onClose t = toast_onClose t'.

(** The [onClose] calls made between [s] and [s'] are calls of the callback
    of an entry of [s] that is no longer in the list of [s']. *)
Definition closes_leavers (s s' : State) : Prop :=
  ∃ l, closed s' = closed s ++ l ∧
       ∀ ev : CloseEvent, ev ∈ l →
         (∃ t, t ∈ toasts s ∧ toast_serial t = ev.1 ∧ toast_onClose t = Some ev.2) ∧
         (∀ t', t' ∈ toasts s' → toast_serial t' ≠ ev.1).

(** A provider that keeps one entry per slot. *)
Definition single_config : ToastConfig :=
  mkConfig 4000 top_right filled 1 true true 8 (16, 16).


(** ** The presentation layer (components.tsx) *)

(** The string value of a [ToastPosition]. *)
Definition position_name (p : ToastPosition) : string :=
  match p with
  | top_left => "top-left"
  | top_center => "top-center"
  | top_right => "top-right"
  | bottom_left => "bottom-left"
  | bottom_center => "bottom-center"
  | bottom_right => "bottom-right"
  end.

(** [s.includes(sub)] *)
Definition includes (s sub : string) : bool :=
  match String.index 0 sub s with
  | Some _ => true
  | None => false
  end.

(** A CSS length given as a number of pixels or as a string. *)
Inductive CssValue := Px (n : Z) | Keyword (k : string).

(** The [React.CSSProperties] that [getPositionStyles] fills in. *)
Record PositionStyles := mkStyles {
  css_top : option Z;
  css_bottom : option Z;
  css_left : option CssValue;
  css_right : option Z;
  css_alignItems : option string;
  css_transform : option string
}.

Definition getPositionStyles (position : ToastPosition) (offset : option Z * option Z)
  : PositionStyles :=
  let x := default 16 offset.1 in
  let y := default 16 offset.2 in
  let name := position_name position in
  let vertical :=
    if includes name "top" then (Some y, None) else (None, Some y) in
  if includes name "left" then
    mkStyles vertical.1 vertical.2 (Some (Px x)) None (Some "flex-start"%string) None
  else if includes name "right" then
    mkStyles vertical.1 vertical.2 None (Some x) (Some "flex-end"%string) None
  else
    mkStyles vertical.1 vertical.2 (Some (Keyword "50%")) None (Some "center"%string)
      (Some "translateX(-50%)"%string).

(** [position ? toast.position === position : true] *)
Definition shown_in (position : option ToastPosition) (t : Toast) : Prop :=
  match position with
  | Some p => toast_position t = p
  | None => True
  end.

#[global] Instance shown_in_dec position t : Decision (shown_in position t).
Proof. destruct position; simpl; apply _. Defined.

(** What a [ToastContainer] renders: the position in its label, its
    position styles and gap, and the entries handed to [ToastItem], in
    order. *)
Record ContainerView := mkView {
  view_position : ToastPosition;
  view_styles : PositionStyles;
  view_gap : Z;
  view_items : list Toast
}.

(** [None] is the [null] render. *)
Definition ToastContainer (config : ToastConfig) (position : option ToastPosition)
    (l : list Toast) : option ContainerView :=
  let positionToasts := filter (shown_in position) l in
  if decide (length positionToasts = 0%nat) then None
  else
    let containerPosition :=
      match position with
      | Some p => p
      | None => match head positionToasts with
                | Some t => toast_position t
                | None => top_right
                end
      end in
    Some (mkView containerPosition
            (getPositionStyles containerPosition
               (Some (offset config).1, Some (offset config).2))
            (gap config) positionToasts).

(** [Array.from(new Set(l))]: the distinct values in order of first
    occurrence. *)
Fixpoint unique_from {A} `{EqDecision A} (seen l : list A) : list A :=
  match l with
  | [] => []
  | a :: l' =>
      if decide (a ∈ seen) then unique_from seen l'
      else a :: unique_from (a :: seen) l'
  end.

Definition Toaster (config : ToastConfig) (l : list Toast) : list (option ContainerView) :=
  (λ p, ToastContainer config (Some p) l) <$> unique_from [] (toast_position <$> l).

Definition is_top (p : ToastPosition) : bool :=
  match p with top_left | top_center | top_right => true | _ => false end.

Inductive Column := ColLeft | ColCenter | ColRight.

Definition column (p : ToastPosition) : Column :=
  match p with
  | top_left | bottom_left => ColLeft
  | top_center | bottom_center => ColCenter
  | top_right | bottom_right => ColRight
  end.


(** ** The timer queue: basic facts *)

Lemma enqueue_split t q :
  ∃ q1 q2, q = q1 ++ q2 ∧ enqueue t q = q1 ++ t :: q2.
Proof.
  induction q as [|u q IH]; simpl.
  - by exists [], [].
  - destruct (timer_due u <=? timer_due t).
    + destruct IH as (q1 & q2 & -> & ->). by exists (u :: q1), q2.
    + by exists [], (u :: q).
Qed.

Lemma elem_of_enqueue t u q : u ∈ enqueue t q ↔ u = t ∨ u ∈ q.
Proof.
  destruct (enqueue_split t q) as (q1 & q2 & -> & ->).
  rewrite !elem_of_app, elem_of_cons. tauto.
Qed.

Lemma weight_app q1 q2 : weight (q1 ++ q2) = (weight q1 + weight q2)%nat.
Proof. unfold weight. by rewrite sum_list_with_app. Qed.

Lemma weight_cons t q : weight (t :: q) = (weight [t] + weight q)%nat.
Proof. unfold weight. simpl. lia. Qed.

Lemma weight_enqueue t q : weight (enqueue t q) = (weight [t] + weight q)%nat.
Proof.
  destruct (enqueue_split t q) as (q1 & q2 & -> & ->).
  rewrite !weight_app, (weight_cons t q2). lia.
Qed.

Lemma weight_one t : (1 ≤ weight [t] ≤ 2)%nat.
Proof. unfold weight. simpl. destruct (timer_kind t); lia. Qed.

Lemma weight_clearTimeout h q : (weight (clearTimeout h q) ≤ weight q)%nat.
Proof.
  unfold clearTimeout. induction q as [|t q IH]; [done|].
  rewrite filter_cons. destruct (decide _).
  - rewrite (weight_cons t q), (weight_cons t (filter _ q)). lia.
  - rewrite (weight_cons t q). lia.
Qed.

Lemma queue_clearTimer i s :
  queue (clearTimer i s) =
  match timersRef s !! i with
  | Some h => clearTimeout h (queue s)
  | None => queue s
  end.
Proof. unfold clearTimer. by destruct (timersRef s !! i). Qed.

Lemma weight_clearTimer i s : (weight (queue (clearTimer i s)) ≤ weight (queue s))%nat.
Proof.
  rewrite queue_clearTimer. destruct (timersRef s !! i); [|done].
  apply weight_clearTimeout.
Qed.

Lemma queue_purge i s : queue (purge i s) = queue s.
Proof.
  unfold purge. destruct (find _ _) as [t|]; [|done].
  by destruct (toast_onClose t).
Qed.

Lemma weight_tick s t q :
  queue s = t :: q → (weight (queue (tick s)) < weight (queue s))%nat.
Proof.
  intros Hq. unfold tick. rewrite Hq, (weight_cons t q).
  unfold fire. destruct (timer_kind t) eqn:Hk.
  - unfold dismiss, setTimeout_dropped. simpl queue.
    rewrite weight_enqueue.
    pose proof (weight_clearTimer (timer_id t)
                  (set_clock (Z.max (clock s) (timer_due t)) (set_queue q s))) as Hle.
    simpl queue in Hle at 2.
    unfold weight at 1 3. simpl. rewrite Hk. lia.
  - rewrite queue_purge. simpl queue. pose proof (weight_one t). lia.
Qed.

Lemma weight_nil_inv q : weight q = 0%nat → q = [].
Proof.
  destruct q as [|t q]; [done|]. rewrite weight_cons.
  pose proof (weight_one t). lia.
Qed.

Lemma run_due_enough lim n m s :
  (weight (queue s) ≤ n)%nat → (weight (queue s) ≤ m)%nat →
  run_due n lim s = run_due m lim s.
Proof.
  revert m s. induction n as [|n IH]; intros m s Hn Hm.
  - assert (queue s = []) as Hq by (apply weight_nil_inv; lia).
    destruct m; simpl; [done|]. by rewrite Hq.
  - simpl. destruct (queue s) as [|t q] eqn:Hq.
    + destruct m; simpl; [done|]. by rewrite Hq.
    + destruct m as [|m].
      { rewrite weight_cons in Hm. pose proof (weight_one t). lia. }
      simpl. rewrite Hq. destruct (due_by lim t); [|done].
      pose proof (weight_tick s t q Hq) as Hlt. rewrite Hq in Hlt.
      apply IH; lia.
Qed.

Lemma run_nil lim s : queue s = [] → run lim s = s.
Proof. intros Hq. unfold run. rewrite Hq. done. Qed.

Lemma run_late lim s t q :
  queue s = t :: q → due_by lim t = false → run lim s = s.
Proof.
  intros Hq Hd. unfold run. destruct (weight (queue s)); simpl; [done|].
  by rewrite Hq, Hd.
Qed.

Lemma run_step lim s t q :
  queue s = t :: q → due_by lim t = true → run lim s = run lim (tick s).
Proof.
  intros Hq Hd. unfold run at 1.
  pose proof (weight_tick s t q Hq) as Hlt.
  destruct (weight (queue s)) as [|n] eqn:Hw; [lia|].
  simpl. rewrite Hq, Hd. apply run_due_enough; lia.
Qed.

(** The queue is worked off: [run] stops only at an empty queue or at a
    timeout that is not due yet, and every invariant of [tick] on due
    timeouts is an invariant of [run]. *)
Lemma run_invariant (P : State → Prop) lim :
  (∀ s t q, P s → queue s = t :: q → due_by lim t = true → P (tick s)) →
  ∀ s, P s →
    P (run lim s) ∧
    match queue (run lim s) with
    | [] => True
    | t :: _ => due_by lim t = false
    end.
Proof.
  intros Hstep s. remember (weight (queue s)) as n eqn:Hn.
  revert s Hn. induction (lt_wf n) as [n _ IH]. intros s -> HP.
  destruct (queue s) as [|t q] eqn:Hq.
  - rewrite run_nil by done. by rewrite Hq.
  - destruct (due_by lim t) eqn:Hd.
    + rewrite (run_step lim s t q) by done.
      eapply IH; [|reflexivity|by eapply Hstep].
      rewrite <- Hq. by eapply weight_tick.
    + rewrite (run_late lim s t q) by done. by rewrite Hq.
Qed.

Lemma flush_queue s : queue (flush s) = [].
Proof.
  destruct (run_invariant (λ _, True) None) with (s := s) as [_ H]; [done..|].
  unfold flush. by destruct (queue (run None s)).
Qed.

(** ** Well-formedness of the timer bookkeeping is preserved *)

Lemma sublist_omap {A B} (f : A → option B) l1 l2 :
  l1 `sublist_of` l2 → omap f l1 `sublist_of` omap f l2.
Proof.
  induction 1 as [|x l1 l2 _ IH|x l1 l2 _ IH]; simpl.
  - constructor.
  - destruct (f x); [by constructor|done].
  - destruct (f x); [by constructor|done].
Qed.

Lemma Forall_filter_keep {A} (Q : A → Prop) (P : A → Prop) `{!∀ x, Decision (P x)} l :
  Forall Q l → Forall Q (filter P l).
Proof.
  rewrite !Forall_forall. intros HQ x [_ Hx]%list_elem_of_filter. by apply HQ.
Qed.

Lemma sorted_filter (P : Timer → Prop) `{!∀ t, Decision (P t)} q :
  sorted q → sorted (filter P q).
Proof.
  induction q as [|t q IH]; [done|]. intros [Ht Hq].
  rewrite filter_cons. destruct (decide (P t)); [|by apply IH].
  split; [|by apply IH].
  rewrite Forall_forall in Ht |- *. intros u Hu.
  apply Ht. by apply list_elem_of_filter in Hu as [_ ?].
Qed.

Lemma sorted_enqueue t q : sorted q → sorted (enqueue t q).
Proof.
  induction q as [|u q IH]; simpl.
  - intros _. split; [constructor|done].
  - intros [Hu Hq]. destruct (Z.leb_spec (timer_due u) (timer_due t)).
    + split; [|by apply IH].
      rewrite Forall_forall in Hu |- *. intros v Hv.
      apply elem_of_enqueue in Hv as [->|Hv]; [done|by apply Hu].
    + split; [|done]. constructor; [lia|].
      eapply Forall_impl; [exact Hu|]. simpl. intros; lia.
Qed.

Lemma sorted_head_le t q u : sorted (t :: q) → u ∈ t :: q → timer_due t ≤ timer_due u.
Proof.
  intros [Ht _] [->|Hu]%elem_of_cons; [lia|].
  rewrite Forall_forall in Ht. by apply Ht.
Qed.

Lemma timers_ok_ext s s' :
  timersRef s' = timersRef s → queue s' = queue s → clock s' = clock s →
  nextHandle s' = nextHandle s → timers_ok s → timers_ok s'.
Proof.
  destruct s, s'. simpl. intros -> -> -> -> [H1 H2 H3 H4 H5 H6 H7]. by split.
Qed.

Lemma timers_ok_clearTimer i s : timers_ok s → timers_ok (clearTimer i s).
Proof.
  intros [H1 H2 H3 H4 H5 H6 H7]. unfold clearTimer.
  destruct (timersRef s !! i) as [h|] eqn:Hi; [|by split].
  unfold clearTimeout. split; simpl.
  - by apply sorted_filter.
  - by apply Forall_filter_keep.
  - rewrite Forall_forall in H3 |- *. intros t [Hh Ht]%list_elem_of_filter.
    specialize (H3 t Ht). destruct (timer_kind t); [|done].
    destruct H3 as (h' & Hh' & Hm). exists h'. split; [done|].
    rewrite lookup_delete_ne; [done|]. intros ->. congruence.
  - intros j h' t [Hne Hj]%lookup_delete_Some [_ Ht]%list_elem_of_filter.
    by apply H4.
  - eapply sublist_NoDup; [exact H5|]. apply sublist_omap, sublist_filter.
  - by apply Forall_filter_keep.
  - intros j h' [_ Hj]%lookup_delete_Some. by eapply H7.
Qed.

Lemma omap_handle_enqueue_anonymous t q :
  timer_handle t = None → omap timer_handle (enqueue t q) = omap timer_handle q.
Proof.
  intros Ht. destruct (enqueue_split t q) as (q1 & q2 & -> & ->).
  rewrite !omap_app. simpl. by rewrite Ht.
Qed.

Lemma timers_ok_setTimeout_dropped i d s :
  0 ≤ d → timers_ok s → timers_ok (setTimeout_dropped Purge i d s).
Proof.
  intros Hd [H1 H2 H3 H4 H5 H6 H7]. unfold setTimeout_dropped. split; simpl.
  - by apply sorted_enqueue.
  - rewrite Forall_forall in H2 |- *. intros t [->|Ht]%elem_of_enqueue; simpl; [lia|].
    by apply H2.
  - rewrite Forall_forall in H3 |- *. intros t [->|Ht]%elem_of_enqueue; simpl; [done|].
    by apply H3.
  - intros j h t Hj [->|Ht]%elem_of_enqueue; simpl; [done|]. by apply H4.
  - by rewrite omap_handle_enqueue_anonymous.
  - rewrite Forall_forall in H6 |- *. intros t [->|Ht]%elem_of_enqueue; simpl; [done|].
    by apply H6.
  - done.
Qed.

Lemma timers_ok_setTimer i d s : timers_ok s → timers_ok (setTimer i d s).
Proof.
  intros Hs. unfold setTimer. destruct (Z.leb_spec d 0) as [|Hd]; [done|].
  pose proof (timers_ok_clearTimer i s Hs) as [H1 H2 H3 H4 H5 H6 H7].
  assert (timersRef (clearTimer i s) !! i = None) as Hnone.
  { unfold clearTimer. destruct (timersRef s !! i) eqn:Hi; simpl; [|done].
    apply lookup_delete_eq. }
  set (s1 := clearTimer i s) in *.
  set (t0 := mkTimer (Some (nextHandle s1)) (clock s1 + d) Expiry i).
  simpl. split; simpl; fold t0.
  - by apply sorted_enqueue.
  - rewrite Forall_forall in H2 |- *. intros t [->|Ht]%elem_of_enqueue; simpl; [lia|].
    by apply H2.
  - rewrite Forall_forall in H3 |- *. intros t [->|Ht]%elem_of_enqueue; simpl.
    + exists (nextHandle s1). by rewrite lookup_insert_eq.
    + specialize (H3 t Ht). destruct (timer_kind t); [|done].
      destruct H3 as (h & Hh & Hm). exists h. split; [done|].
      rewrite lookup_insert_ne; [done|]. intros Heq. rewrite <- Heq in Hm. congruence.
  - rewrite Forall_forall in H6.
    intros j h t Hj [->|Ht]%elem_of_enqueue Hh; simpl in *.
    + destruct (decide (i = j)) as [|Hne]; [done|].
      rewrite lookup_insert_ne in Hj by done.
      apply H7 in Hj. simplify_eq. lia.
    + destruct (decide (i = j)) as [<-|Hne].
      * rewrite lookup_insert_eq in Hj. simplify_eq.
        specialize (H6 t Ht _ Hh). lia.
      * rewrite lookup_insert_ne in Hj by done. by eapply H4.
  - destruct (enqueue_split t0 (queue s1)) as (q1 & q2 & Hq & ->).
    rewrite Hq, omap_app in H5. rewrite omap_app. simpl.
    apply NoDup_app in H5 as (Ha & Hb & Hc).
    apply NoDup_app. split; [done|]. split.
    + intros h Hh [->|Hin]%elem_of_cons; [|by eapply Hb].
      apply list_elem_of_omap in Hh as (t & Ht & Hh).
      rewrite Forall_forall in H6. specialize (H6 t). rewrite Hq in H6.
      specialize (H6 ltac:(apply elem_of_app; by left) _ Hh). lia.
    + apply NoDup_cons. split; [|done].
      intros (t & Ht & Hh)%list_elem_of_omap.
      rewrite Forall_forall in H6. specialize (H6 t). rewrite Hq in H6.
      specialize (H6 ltac:(apply elem_of_app; by right) _ Hh). lia.
  - rewrite Forall_forall in H6 |- *. intros t [->|Ht]%elem_of_enqueue h Hh; simpl in *.
    + simplify_eq. lia.
    + specialize (H6 t Ht h Hh). lia.
  - intros j h. destruct (decide (i = j)) as [<-|Hne].
    + rewrite lookup_insert_eq. intros; simplify_eq. lia.
    + rewrite lookup_insert_ne by done. intros Hj. apply H7 in Hj. lia.
Qed.

Lemma timers_ok_pop s t q :
  queue s = t :: q → timers_ok s →
  timers_ok (set_clock (Z.max (clock s) (timer_due t)) (set_queue q s)).
Proof.
  intros Hq [H1 H2 H3 H4 H5 H6 H7]. rewrite Hq in *.
  destruct H1 as [Hhd H1].
  apply Forall_cons in H2 as [? H2]. apply Forall_cons in H3 as [_ H3].
  apply Forall_cons in H6 as [_ H6].
  split; simpl; try done.
  - rewrite Forall_forall in Hhd, H2 |- *. intros u Hu.
    specialize (Hhd u Hu). specialize (H2 u Hu). lia.
  - intros i h u Hi Hu. apply H4; [done|]. by apply elem_of_cons; right.
  - eapply sublist_NoDup; [exact H5|]. apply sublist_omap. by constructor.
Qed.

(** ** What each primitive leaves alone *)

Lemma clearTimer_frame i s :
  toasts (clearTimer i s) = toasts s ∧ closed (clearTimer i s) = closed s ∧
  nextSerial (clearTimer i s) = nextSerial s ∧ clock (clearTimer i s) = clock s ∧
  nextHandle (clearTimer i s) = nextHandle s.
Proof. unfold clearTimer. by destruct (timersRef s !! i). Qed.

Lemma setTimer_frame i d s :
  toasts (setTimer i d s) = toasts s ∧ closed (setTimer i d s) = closed s ∧
  nextSerial (setTimer i d s) = nextSerial s ∧ clock (setTimer i d s) = clock s.
Proof.
  unfold setTimer. destruct (d <=? 0); [done|]. simpl.
  by destruct (clearTimer_frame i s) as (-> & -> & -> & -> & _).
Qed.

Lemma timersRef_clearTimer i s : timersRef (clearTimer i s) = delete i (timersRef s).
Proof.
  unfold clearTimer. destruct (timersRef s !! i) eqn:Hi; [done|].
  by rewrite delete_id.
Qed.

Lemma entries_ok_ext s s' :
  toasts s' = toasts s → closed s' = closed s → nextSerial s' = nextSerial s →
  entries_ok s → entries_ok s'.
Proof. destruct s, s'. simpl. intros -> -> -> [H1 H2 H3 H4 H5]. by split. Qed.

Lemma entries_ok_clearTimer i s : entries_ok s → entries_ok (clearTimer i s).
Proof. destruct (clearTimer_frame i s) as (? & ? & ? & _). by apply entries_ok_ext. Qed.

Lemma entries_ok_setTimer i d s : entries_ok s → entries_ok (setTimer i d s).
Proof. destruct (setTimer_frame i d s) as (? & ? & ? & _). by apply entries_ok_ext. Qed.

(** Rewriting entries in place (as [dismiss] and [update] do) keeps their
    serials. *)
Lemma entries_ok_rewrite (f : Toast → Toast) s :
  (∀ t, toast_serial (f t) = toast_serial t) →
  entries_ok s → entries_ok (set_toasts (f <$> toasts s) s).
Proof.
  intros Hf [H1 H2 H3 H4 H5].
  assert (toast_serial <$> (f <$> toasts s) = toast_serial <$> toasts s) as Heq.
  { rewrite <- list_fmap_compose. apply list_fmap_ext. intros _ t _. apply Hf. }
  split; simpl; try done.
  - rewrite Forall_forall in H1 |- *.
    intros t (t' & -> & Ht')%list_elem_of_fmap. rewrite Hf. by apply H1.
  - by rewrite Heq.
  - intros t e (t' & -> & Ht')%list_elem_of_fmap He. rewrite Hf. by apply H4.
Qed.

Lemma Forall_sublist_keep {A} (Q : A → Prop) l1 l2 :
  l1 `sublist_of` l2 → Forall Q l2 → Forall Q l1.
Proof.
  rewrite !Forall_forall. intros Hsub HQ x Hx. apply HQ. by eapply elem_of_sublist.
Qed.

Lemma serial_inj l x y :
  NoDup (toast_serial <$> l) → x ∈ l → y ∈ l →
  toast_serial x = toast_serial y → x = y.
Proof.
  induction l as [|z l IH]; [by intros _ ?%elem_of_nil|].
  rewrite fmap_cons. intros [Hz Hl]%NoDup_cons.
  intros [->|Hx]%elem_of_cons [->|Hy]%elem_of_cons Hxy; auto.
  - exfalso. apply Hz. rewrite Hxy. by apply list_elem_of_fmap_2.
  - exfalso. apply Hz. rewrite <- Hxy. by apply list_elem_of_fmap_2.
Qed.

Lemma NoDup_submseteq_keep {A} (l1 l2 : list A) : l1 ⊆+ l2 → NoDup l2 → NoDup l1.
Proof.
  intros (k & Hk)%submseteq_Permutation Hl2. rewrite Hk in Hl2.
  by apply NoDup_app in Hl2 as [? _].
Qed.

Lemma entries_ok_shrink (l : list Toast) s :
  l ⊆+ toasts s → entries_ok s → entries_ok (set_toasts l s).
Proof.
  intros Hl [H1 H2 H3 H4 H5]. split; simpl; try done.
  - rewrite Forall_forall in H1 |- *. intros t Ht. apply H1.
    by eapply elem_of_submseteq.
  - eapply NoDup_submseteq_keep; [|exact H2]. by apply fmap_submseteq.
  - intros t e Ht. apply H4. by eapply elem_of_submseteq.
Qed.

Lemma find_id_Some i l t :
  find (λ t, bool_decide (toast_id t = i)) l = Some t → t ∈ l ∧ toast_id t = i.
Proof.
  induction l as [|u l IH]; simpl; [done|].
  case_bool_decide.
  - intros [= ->]. split; [by left|done].
  - intros Hf. destruct (IH Hf). split; [by right|done].
Qed.

Lemma find_id_None i l :
  find (λ t, bool_decide (toast_id t = i)) l = None ↔ ∀ t, t ∈ l → toast_id t ≠ i.
Proof.
  induction l as [|u l IH]; simpl.
  - split; [|done]. intros _ t Ht. by apply elem_of_nil in Ht.
  - case_bool_decide as Hu.
    + split; [done|]. intros H. exfalso. by apply (H u); [left|].
    + rewrite IH. split.
      * intros H t [->|Ht]%elem_of_cons; [done|by apply H].
      * intros H t Ht. apply H. by right.
Qed.

Lemma entries_ok_purge i s : entries_ok s → entries_ok (purge i s).
Proof.
  intros Hs. unfold purge.
  assert (filter (λ t, toast_id t ≠ i) (toasts s) `sublist_of` toasts s) as Hsub
    by apply sublist_filter.
  destruct (find _ (toasts s)) as [t0|] eqn:Hfind;
    [destruct (toast_onClose t0) as [cb|] eqn:Hcb|];
    try (apply entries_ok_shrink; [by apply sublist_submseteq|done]).
  apply find_id_Some in Hfind as [Ht0 Hid].
  destruct Hs as [H1 H2 H3 H4 H5]. split; simpl.
  - eapply Forall_sublist_keep; eauto.
  - eapply sublist_NoDup; [exact H2|]. by apply fmap_sublist.
  - apply Forall_app. split; [done|]. constructor; [|done]. simpl.
    rewrite Forall_forall in H1. by apply H1.
  - intros t e [Hne Ht]%list_elem_of_filter [He|He%list_elem_of_singleton]%elem_of_app.
    + by apply H4.
    + subst e. simpl. intros Heq. apply Hne. rewrite <- Hid.
      f_equal. eapply serial_inj; eauto.
  - rewrite fmap_app. apply NoDup_app. split; [done|]. split; [|apply NoDup_singleton].
    simpl. intros u Hu Hu'%list_elem_of_singleton. subst u.
    apply list_elem_of_fmap in Hu as (e & He1 & He).
    by apply (H4 t0 e).
Qed.

Lemma timers_ok_purge i s : timers_ok s → timers_ok (purge i s).
Proof.
  apply timers_ok_ext; unfold purge;
    (destruct (find _ (toasts s)) as [t|]; [destruct (toast_onClose t)|]); done.
Qed.

Lemma timers_ok_dismiss i s : timers_ok s → timers_ok (dismiss i s).
Proof.
  intros Hs. unfold dismiss. apply timers_ok_setTimeout_dropped; [lia|].
  eapply timers_ok_ext; [..|apply (timers_ok_clearTimer i s Hs)]; done.
Qed.

Lemma entries_ok_dismiss i s : entries_ok s → entries_ok (dismiss i s).
Proof.
  intros Hs. unfold dismiss, setTimeout_dropped.
  eapply entries_ok_ext;
    [..|apply (entries_ok_rewrite
                 (λ t, if decide (toast_id t = i) then mark_removing t else t)
                 (clearTimer i s))]; try done.
  - intros t. by destruct (decide _).
  - by apply entries_ok_clearTimer.
Qed.

Lemma timers_ok_update i m o s : timers_ok s → timers_ok (update i m o s).
Proof.
  intros Hs. unfold update.
  destruct (opt_duration o); [apply timers_ok_setTimer|];
    (eapply timers_ok_ext; [..|exact Hs]; done).
Qed.

Lemma entries_ok_update i m o s : entries_ok s → entries_ok (update i m o s).
Proof.
  intros Hs. unfold update.
  assert (entries_ok (set_toasts
    ((λ t, if decide (toast_id t = i) then merge t m o else t) <$> toasts s) s)).
  { apply entries_ok_rewrite; [|done]. intros t. by destruct (decide _). }
  destruct (opt_duration o); [by apply entries_ok_setTimer|done].
Qed.

(** [dismissAll]: which timeouts survive the [clearTimeout] sweep. *)
Lemma elem_of_sweep (kvs : list (string * nat)) q t :
  t ∈ foldr (λ kv acc, clearTimeout kv.2 acc) q kvs ↔
  t ∈ q ∧ ∀ kv, kv ∈ kvs → timer_handle t ≠ Some kv.2.
Proof.
  induction kvs as [|kv kvs IH]; simpl.
  - split; [|by intros [? _]]. intros Ht. split; [done|]. by intros kv ?%elem_of_nil.
  - unfold clearTimeout at 1. rewrite list_elem_of_filter, IH. split.
    + intros (Hkv & Ht & Hall). split; [done|].
      intros kv' [->|Hin]%elem_of_cons; [done|by apply Hall].
    + intros (Ht & Hall). split; [apply Hall; by left|]. split; [done|].
      intros kv' Hin. apply Hall. by right.
Qed.

Lemma sweep_sublist (kvs : list (string * nat)) q :
  foldr (λ kv acc, clearTimeout kv.2 acc) q kvs `sublist_of` q.
Proof.
  induction kvs as [|kv kvs IH]; simpl; [done|].
  etrans; [apply sublist_filter|done].
Qed.

Lemma sorted_sublist q1 q2 : q1 `sublist_of` q2 → sorted q2 → sorted q1.
Proof.
  induction 1 as [|t q1 q2 Hsub IH|t q1 q2 Hsub IH]; simpl; [done|..].
  - intros [Ht Hq]. split; [|by apply IH]. by eapply Forall_sublist_keep.
  - intros [_ Hq]. by apply IH.
Qed.

Lemma timers_ok_dismissAll s : timers_ok s → timers_ok (dismissAll s).
Proof.
  intros [H1 H2 H3 H4 H5 H6 H7]. unfold dismissAll.
  pose proof (sweep_sublist (map_to_list (timersRef s)) (queue s)) as Hsub.
  split; simpl.
  - by eapply sorted_sublist.
  - by eapply Forall_sublist_keep.
  - rewrite Forall_forall in H3 |- *. intros t [Ht Hall]%elem_of_sweep.
    specialize (H3 t Ht). destruct (timer_kind t); [|done].
    destruct H3 as (h & Hh & Hm). exfalso.
    apply (Hall (timer_id t, h)); [|done]. by apply elem_of_map_to_list.
  - intros i h t. by rewrite lookup_empty.
  - eapply sublist_NoDup; [exact H5|]. by apply sublist_omap.
  - by eapply Forall_sublist_keep.
  - intros i h. by rewrite lookup_empty.
Qed.

Lemma close_events_serials l :
  fst <$> close_events l `sublist_of` toast_serial <$> l.
Proof.
  induction l as [|t l IH]; simpl; [done|].
  destruct (toast_onClose t); simpl; by constructor.
Qed.

Lemma elem_of_close_events l e :
  e ∈ close_events l ↔ ∃ t, t ∈ l ∧ toast_onClose t = Some e.2 ∧ toast_serial t = e.1.
Proof.
  unfold close_events. rewrite list_elem_of_omap. split.
  - intros (t & Ht & He). exists t. split; [done|].
    destruct (toast_onClose t); by simplify_eq.
  - intros (t & Ht & Hcb & Hser). exists t. split; [done|].
    rewrite Hcb, Hser. by destruct e.
Qed.

Lemma entries_ok_dismissAll s : entries_ok s → entries_ok (dismissAll s).
Proof.
  intros [H1 H2 H3 H4 H5]. unfold dismissAll. split; simpl.
  - constructor.
  - constructor.
  - apply Forall_app. split; [done|].
    rewrite Forall_forall in H1. rewrite Forall_forall.
    intros e (t & Ht & _ & <-)%elem_of_close_events. by apply H1.
  - by intros t e ?%elem_of_nil.
  - rewrite fmap_app. apply NoDup_app. split; [done|]. split.
    + intros u (e & -> & He)%list_elem_of_fmap (e' & Hu & He')%list_elem_of_fmap.
      apply elem_of_close_events in He' as (t & Ht & _ & Hser).
      apply (H4 t e Ht He). congruence.
    + eapply sublist_NoDup; [exact H2|]. apply close_events_serials.
Qed.

(** ** [createToast] *)

Lemma slice_sublist {A} (l : list A) a b : slice l a b `sublist_of` l.
Proof. unfold slice. etrans; [apply sublist_take|apply sublist_drop]. Qed.

Lemma evict_frame (l : list Toast) s :
  let s' := foldl (λ acc t, clearTimer (toast_id t) acc) s l in
  toasts s' = toasts s ∧ closed s' = closed s ∧ nextSerial s' = nextSerial s ∧
  clock s' = clock s ∧ nextHandle s' = nextHandle s.
Proof.
  revert s. induction l as [|t l IH]; intros s; simpl; [done|].
  destruct (IH (clearTimer (toast_id t) s)) as (-> & -> & -> & -> & ->).
  apply clearTimer_frame.
Qed.

Lemma evict_timers_ok (l : list Toast) s :
  timers_ok s → timers_ok (foldl (λ acc t, clearTimer (toast_id t) acc) s l).
Proof.
  revert s. induction l as [|t l IH]; intros s Hs; simpl; [done|].
  by apply IH, timers_ok_clearTimer.
Qed.

Lemma evict_timersRef (l : list Toast) s i :
  timersRef (foldl (λ acc t, clearTimer (toast_id t) acc) s l) !! i =
  if decide (i ∈ toast_id <$> l) then None else timersRef s !! i.
Proof.
  revert s. induction l as [|t l IH]; intros s; [done|].
  - cbn [foldl]. rewrite fmap_cons, IH, timersRef_clearTimer.
    destruct (decide (i ∈ toast_id <$> l)) as [Hin|Hnin].
    + rewrite decide_True; [done|]. by right.
    + destruct (decide (i = toast_id t)) as [->|Hne].
      * rewrite lookup_delete_eq, decide_True; [done|]. by left.
      * rewrite lookup_delete_ne by done. rewrite decide_False; [done|].
        by intros [?|?]%elem_of_cons.
Qed.

Lemma insert_toast_frame config t s :
  closed (insert_toast config t s) = closed s ∧
  nextSerial (insert_toast config t s) = nextSerial s ∧
  clock (insert_toast config t s) = clock s ∧
  nextHandle (insert_toast config t s) = nextHandle s.
Proof.
  unfold insert_toast. destruct (_ >? _); simpl; [|done].
  match goal with |- context [foldl _ s ?l] =>
    by destruct (evict_frame l s) as (_ & -> & -> & -> & ->) end.
Qed.

Lemma insert_toast_submseteq config t s :
  toasts (insert_toast config t s) ⊆+ t :: toasts s.
Proof.
  assert (∀ l, l ⊆+ t :: filter (λ u, toast_position u = toast_position t) (toasts s) →
    l ++ filter (λ u, toast_position u ≠ toast_position t) (toasts s) ⊆+ t :: toasts s)
    as Hgen.
  { intros l Hl.
    rewrite <- (filter_app_complement (λ u, toast_position u = toast_position t) (toasts s))
      at 2.
    rewrite app_comm_cons. by apply submseteq_app. }
  unfold insert_toast. destruct (_ >? _).
  - apply (Hgen (slice _ _ _)), sublist_submseteq, slice_sublist.
  - by apply (Hgen (t :: _)).
Qed.

Lemma timers_ok_insert_toast config t s :
  timers_ok s → timers_ok (insert_toast config t s).
Proof.
  intros Hs. unfold insert_toast. destruct (_ >? _); simpl.
  - match goal with |- context [foldl _ s ?l] =>
      eapply timers_ok_ext; [..|apply (evict_timers_ok l s Hs)]; done end.
  - eapply timers_ok_ext; [..|exact Hs]; done.
Qed.

Lemma createToast_state config m o rnd s :
  (createToast config m o rnd s).2 =
  let t := new_toast config m o rnd s in
  let s1 := insert_toast config t (bump_serial s) in
  if toast_duration t >? 0 then setTimer (toast_id t) (toast_duration t) s1 else s1.
Proof. done. Qed.

Lemma toasts_createToast config m o rnd s :
  toasts (createToast config m o rnd s).2 =
  toasts (insert_toast config (new_toast config m o rnd s) (bump_serial s)).
Proof.
  rewrite createToast_state. cbv zeta. destruct (_ >? _); [|done].
  by destruct (setTimer_frame (toast_id (new_toast config m o rnd s))
    (toast_duration (new_toast config m o rnd s))
    (insert_toast config (new_toast config m o rnd s) (bump_serial s))) as (-> & _).
Qed.

Lemma timers_ok_createToast config m o rnd s :
  timers_ok s → timers_ok (createToast config m o rnd s).2.
Proof.
  intros Hs. rewrite createToast_state.
  assert (timers_ok (insert_toast config (new_toast config m o rnd s) (bump_serial s))).
  { apply timers_ok_insert_toast. eapply timers_ok_ext; [..|exact Hs]; done. }
  cbv zeta. destruct (_ >? _); [by apply timers_ok_setTimer|done].
Qed.

Lemma entries_ok_createToast config m o rnd s :
  entries_ok s → entries_ok (createToast config m o rnd s).2.
Proof.
  intros [H1 H2 H3 H4 H5]. rewrite createToast_state.
  set (s0 := bump_serial s).
  set (t := new_toast config m o rnd s).
  assert (entries_ok (insert_toast config t s0)) as Hins.
  { destruct (insert_toast_frame config t s0) as (Hc & Hn & _).
    pose proof (insert_toast_submseteq config t s0) as Hsub. simpl in Hsub.
    rewrite Forall_forall in H1.
    split; rewrite ?Hc, ?Hn; simpl.
    - rewrite Forall_forall. intros u Hu.
      eapply elem_of_submseteq in Hu; [|exact Hsub].
      apply elem_of_cons in Hu as [->|Hu]; simpl; [lia|]. specialize (H1 u Hu). lia.
    - eapply NoDup_submseteq_keep; [by apply fmap_submseteq|].
      rewrite fmap_cons. apply NoDup_cons. split; [|done]. simpl.
      intros (u & Hu & Hin)%list_elem_of_fmap. specialize (H1 u Hin). lia.
    - eapply Forall_impl; [exact H3|]. simpl. intros; lia.
    - intros u e Hu He. eapply elem_of_submseteq in Hu; [|exact Hsub].
      apply elem_of_cons in Hu as [->|Hu]; simpl; [|by apply H4].
      rewrite Forall_forall in H3. specialize (H3 e He). lia.
    - done. }
  cbv zeta. fold t s0. destruct (_ >? _); [by apply entries_ok_setTimer|done].
Qed.

(** ** Every reachable state is well formed *)

Lemma wf_init : wf init.
Proof.
  split; split; simpl; try constructor; try done.
  - intros t e Ht. by apply elem_of_nil in Ht.
Qed.

Lemma wf_tick s : wf s → wf (tick s).
Proof.
  intros [Ht He]. unfold tick. destruct (queue s) as [|t q] eqn:Hq; [done|].
  pose proof (timers_ok_pop s t q Hq Ht) as Ht'.
  assert (entries_ok (set_clock (Z.max (clock s) (timer_due t)) (set_queue q s))) as He'
    by (eapply entries_ok_ext; [..|exact He]; done).
  unfold fire. destruct (timer_kind t).
  - split; [by apply timers_ok_dismiss|by apply entries_ok_dismiss].
  - split; [by apply timers_ok_purge|by apply entries_ok_purge].
Qed.

Lemma wf_run lim s : wf s → wf (run lim s).
Proof.
  intros Hs. apply (run_invariant wf lim); [|done].
  intros s' t q Hs' _ _. by apply wf_tick.
Qed.


Lemma run_queue_late z s :
  wf s → Forall (λ t, z < timer_due t) (queue (run (Some z) s)).
Proof.
  intros Hs. pose proof (wf_run (Some z) s Hs) as [[Hsorted _ _ _ _ _ _] _].
  destruct (run_invariant (λ _, True) (Some z)) with (s := s) as [_ Hhd]; [done..|].
  destruct (queue (run (Some z) s)) as [|t q]; [constructor|].
  simpl in Hhd. apply Z.leb_gt in Hhd. destruct Hsorted as [Ht _].
  constructor; [lia|]. eapply Forall_impl; [exact Ht|]. simpl. intros; lia.
Qed.

Lemma wf_advance dt s : wf s → wf (advance dt s).
Proof.
  intros Hs. unfold advance.
  pose proof (wf_run (Some (clock s + dt)) s Hs) as [[H1 H2 H3 H4 H5 H6 H7] He].
  pose proof (run_queue_late (clock s + dt) s Hs) as Hlate.
  split; [|by eapply entries_ok_ext; [..|exact He]].
  split; simpl; try done.
  rewrite Forall_forall in H2, Hlate |- *. intros t Ht.
  specialize (H2 t Ht). specialize (Hlate t Ht). lia.
Qed.

Lemma wf_apply config e s : wf s → wf (apply config e s).
Proof.
  intros Hs. destruct e; simpl.
  - destruct Hs. split; [by apply timers_ok_createToast|by apply entries_ok_createToast].
  - destruct Hs. split; [by apply timers_ok_update|by apply entries_ok_update].
  - destruct Hs. split; [by apply timers_ok_dismiss|by apply entries_ok_dismiss].
  - destruct Hs. split; [by apply timers_ok_dismissAll|by apply entries_ok_dismissAll].
  - by apply wf_tick.
  - by apply wf_advance.
Qed.

Lemma reachable_wf config s : reachable config s → wf s.
Proof. induction 1; [apply wf_init|by apply wf_apply]. Qed.

(** ** [update] and the expiry timer *)

(** C1 (code evaluated at the failing input): an entry created with a
    one-second duration and then updated with [duration: 0] has duration 0 in
    the published list, yet its old expiry timeout is still registered and
    pending; one second later the entry is removing, and 300 ms after that it
    is gone and its [onClose] has run. *)
Theorem update_duration_zero_keeps_expiry :
  let s := update "a" 8%nat (with_duration 0) sample_created in
  toast_duration <$> toasts s = [0] ∧
  timersRef s !! "a"%string = Some 1%nat ∧
  queue s = [mkTimer (Some 1%nat) 1000 Expiry "a"] ∧
  toast_removing <$> toasts (advance 1000 s) = [true] ∧
  toasts (advance 300 (advance 1000 s)) = [] ∧
  closed (advance 300 (advance 1000 s)) = [(0%nat, 9%nat)].
Proof. vm_compute. repeat split; reflexivity. Qed.

(** For a positive duration [update] does what the specification says: the
    expiry timeouts pending for the id afterwards are exactly the new one. *)
Lemma pending_expiry_setTimer i d s :
  timers_ok s → 0 < d →
  pending Expiry i (setTimer i d s) =
    [mkTimer (Some (nextHandle s)) (clock s + d) Expiry i].
Proof.
  intros Hs Hd. unfold setTimer, pending.
  destruct (Z.leb_spec d 0) as [|_]; [lia|].
  pose proof (timers_ok_clearTimer i s Hs) as [_ _ H3 _ _ _ _].
  assert (timersRef (clearTimer i s) !! i = None) as Hnone
    by (rewrite timersRef_clearTimer; apply lookup_delete_eq).
  destruct (clearTimer_frame i s) as (_ & _ & _ & Hc & Hn).
  simpl. rewrite Hc, Hn.
  set (t0 := mkTimer _ _ _ _).
  destruct (enqueue_split t0 (queue (clearTimer i s))) as (q1 & q2 & Hq & ->).
  rewrite Hq in H3. apply Forall_app in H3 as [Ha Hb].
  assert (∀ q, Forall (λ t, match timer_kind t with
                 | Expiry => ∃ h, timer_handle t = Some h ∧
                                  timersRef (clearTimer i s) !! timer_id t = Some h
                 | Purge => timer_handle t = None
                 end) q →
            filter (λ t, timer_kind t = Expiry ∧ timer_id t = i) q = []) as Hnil.
  { induction 1 as [|t q Ht _ IH]; [done|].
    rewrite filter_cons_False; [done|]. intros [Hk Hi].
    rewrite Hk, Hi, Hnone in Ht. by destruct Ht as (? & _ & ?). }
  rewrite filter_app, filter_cons_True by done.
  by rewrite !Hnil.
Qed.

(** ** Identifiers *)

(** C8 (counterexample): two creates that pass the same [id] leave two live
    entries with that id. *)
Lemma ids_not_unique :
  ¬ (∀ s, reachable DEFAULT_CONFIG s → NoDup (ids s)).
Proof.
  intros H.
  specialize (H (apply DEFAULT_CONFIG (ECreate 7%nat sample_options "r") sample_created)).
  assert (NoDup ["a"%string; "a"%string]) as Hnd.
  { apply H. apply reach_step, reach_step, reach_init. }
  apply NoDup_cons in Hnd as [Hin _]. apply Hin. by left.
Qed.

Lemma ids_submseteq_createToast config m o rnd s :
  ids (createToast config m o rnd s).2 ⊆+ option_id o (clock s) rnd :: ids s.
Proof.
  unfold ids. rewrite toasts_createToast.
  change (option_id o (clock s) rnd) with (toast_id (new_toast config m o rnd s)).
  rewrite <- fmap_cons.
  apply fmap_submseteq, (insert_toast_submseteq config _ (bump_serial s)).
Qed.

Lemma ids_dismiss i s : ids (dismiss i s) = ids s.
Proof.
  unfold dismiss, ids. simpl.
  destruct (clearTimer_frame i s) as (-> & _).
  rewrite <- list_fmap_compose. apply list_fmap_ext.
  intros _ t _. simpl. by destruct (decide _).
Qed.

Lemma ids_purge i s : ids (purge i s) `sublist_of` ids s.
Proof.
  unfold purge, ids.
  assert (toast_id <$> filter (λ t, toast_id t ≠ i) (toasts s) `sublist_of`
          toast_id <$> toasts s) by apply fmap_sublist, sublist_filter.
  destruct (find _ _) as [t|]; [destruct (toast_onClose t)|]; done.
Qed.

Lemma ids_tick s : ids (tick s) `sublist_of` ids s.
Proof.
  unfold tick. destruct (queue s) as [|t q]; [done|].
  unfold fire. destruct (timer_kind t).
  - by rewrite ids_dismiss.
  - etrans; [apply ids_purge|done].
Qed.

Lemma ids_run lim s : ids (run lim s) `sublist_of` ids s.
Proof.
  apply (run_invariant (λ s', ids s' `sublist_of` ids s) lim); [|done].
  intros s' t q Hs' _ _. etrans; [apply ids_tick|done].
Qed.

Lemma unique_ids_apply config e s :
  keeps_ids_apart e s → NoDup (ids s) → NoDup (ids (apply config e s)).
Proof.
  intros He Hs. destruct e as [m o rnd|i m o| i | | |dt]; simpl in *.
  - eapply NoDup_submseteq_keep; [apply ids_submseteq_createToast|].
    by apply NoDup_cons.
  - unfold update.
    assert (ids (set_toasts
      ((λ t, if decide (toast_id t = i) then merge t m o else t) <$> toasts s) s) = ids s)
      as Heq.
    { unfold ids. simpl. rewrite <- list_fmap_compose. apply list_fmap_ext.
      intros _ t _. simpl. destruct (decide _); [|done]. simpl. by rewrite He. }
    destruct (opt_duration o) as [d|]; [|by rewrite Heq].
    unfold ids in *. destruct (setTimer_frame i d (set_toasts
      ((λ t, if decide (toast_id t = i) then merge t m o else t) <$> toasts s) s))
      as (-> & _). by rewrite Heq.
  - by rewrite ids_dismiss.
  - constructor.
  - eapply sublist_NoDup; [exact Hs|apply ids_tick].
  - eapply sublist_NoDup; [exact Hs|]. unfold advance. apply (ids_run _ s).
Qed.

(** C8 (amended): ids in the published list are pairwise distinct as long as
    every create uses an id (supplied or generated) that no live entry carries
    and no update supplies [id]. *)
Theorem unique_ids_when_kept_apart config es :
  all_keep_ids_apart config es init → NoDup (ids (apply_all config es init)).
Proof.
  assert (∀ s, NoDup (ids s) → all_keep_ids_apart config es s →
               NoDup (ids (apply_all config es s))) as Hgen.
  { induction es as [|e es IH]; intros s Hs Hes; [done|].
    destruct Hes as [He Hes]. apply IH; [|done]. by apply unique_ids_apply. }
  apply Hgen. constructor.
Qed.

Lemma unique_ids_when_kept_apart_witness :
  all_keep_ids_apart DEFAULT_CONFIG
    [ECreate 7%nat sample_options "r"; ECreate 7%nat no_options "k3x9"] init ∧
  NoDup (ids (apply_all DEFAULT_CONFIG
    [ECreate 7%nat sample_options "r"; ECreate 7%nat no_options "k3x9"] init)).
Proof.
  assert (all_keep_ids_apart DEFAULT_CONFIG
    [ECreate 7%nat sample_options "r"; ECreate 7%nat no_options "k3x9"] init) as H.
  { vm_compute. split; [by intros ?%elem_of_nil|]. split; [|done].
    intros [Heq|[]%elem_of_nil]%elem_of_cons. discriminate Heq. }
  split; [exact H|]. exact (unique_ids_when_kept_apart DEFAULT_CONFIG _ H).
Defined.

(** ** [dismissAll] and the timers *)

(** C4 (counterexample): after [dismiss("a")] and then [dismissAll()], the
    purge timeout of ["a"] is still pending. *)
Lemma dismissAll_leaves_purge_pending :
  ¬ (∀ s, reachable DEFAULT_CONFIG s → queue (dismissAll s) = []).
Proof.
  intros H. specialize (H sample_dismissed).
  assert (queue (dismissAll sample_dismissed) = [mkTimer None 300 Purge "a"]) as Hq
    by (vm_compute; reflexivity).
  rewrite H in Hq; [discriminate|].
  apply reach_step, reach_step, reach_init.
Qed.

Lemma sweep_app (kvs : list (string * nat)) q1 q2 :
  foldr (λ kv acc, clearTimeout kv.2 acc) (q1 ++ q2) kvs =
  foldr (λ kv acc, clearTimeout kv.2 acc) q1 kvs ++
  foldr (λ kv acc, clearTimeout kv.2 acc) q2 kvs.
Proof.
  induction kvs as [|kv kvs IH]; simpl; [done|].
  rewrite IH. unfold clearTimeout at 1 2 3. apply filter_app.
Qed.

Lemma sweep_one_kept (kvs : list (string * nat)) t :
  (∀ kv, kv ∈ kvs → timer_handle t ≠ Some kv.2) →
  foldr (λ kv acc, clearTimeout kv.2 acc) [t] kvs = [t].
Proof.
  induction kvs as [|kv kvs IH]; intros Hall; simpl; [done|].
  rewrite IH by (intros kv' Hin; apply Hall; by right).
  unfold clearTimeout. rewrite filter_cons_True; [done|]. apply Hall. by left.
Qed.

Lemma sweep_one_cancelled (kvs : list (string * nat)) t kv :
  kv ∈ kvs → timer_handle t = Some kv.2 →
  foldr (λ kv acc, clearTimeout kv.2 acc) [t] kvs = [].
Proof.
  intros Hin Hh.
  destruct (foldr _ [t] kvs) as [|u q] eqn:Hq; [done|]. exfalso.
  assert (u ∈ foldr (λ kv acc, clearTimeout kv.2 acc) [t] kvs) as Hu
    by (rewrite Hq; by left).
  apply elem_of_sweep in Hu as [Hu%list_elem_of_singleton Hall]. subst u.
  by apply (Hall kv).
Qed.

Lemma dismissAll_queue s :
  timers_ok s →
  queue (dismissAll s) = filter (λ t, timer_kind t = Purge) (queue s).
Proof.
  intros [_ _ H3 _ _ _ _].
  change (queue (dismissAll s)) with
    (foldr (λ kv acc, clearTimeout kv.2 acc) (queue s) (map_to_list (timersRef s))).
  induction H3 as [|t q Ht _ IH].
  - induction (map_to_list (timersRef s)) as [|kv kvs IHk]; [done|].
    simpl. by rewrite IHk.
  - change (t :: q) with ([t] ++ q). rewrite sweep_app, IH, filter_app. f_equal.
    destruct (timer_kind t) eqn:Hk.
    + destruct Ht as (h & Hh & Hm).
      rewrite filter_cons_False, filter_nil by (rewrite Hk; done).
      eapply (sweep_one_cancelled _ t (timer_id t, h)); [|done].
      by apply elem_of_map_to_list.
    + rewrite filter_cons_True, filter_nil by done.
      apply sweep_one_kept. intros kv _. by rewrite Ht.
Qed.

(** C4 (amended): after [dismissAll()] no expiry timeout is pending and
    [timersRef] is empty; the purge timeouts that were pending are all still
    pending, and nothing else is. *)
Theorem dismissAll_cancels_expiry_only config s :
  reachable config s →
  timersRef (dismissAll s) = ∅ ∧
  (∀ i, pending Expiry i (dismissAll s) = []) ∧
  queue (dismissAll s) = filter (λ t, timer_kind t = Purge) (queue s).
Proof.
  intros [Ht _]%reachable_wf. split; [done|]. split; [|by apply dismissAll_queue].
  intros i. unfold pending. rewrite dismissAll_queue by done.
  rewrite list_filter_filter. induction (queue s) as [|t q IH]; [done|].
  rewrite filter_cons_False; [done|]. intros [[Hk _] Hk']. congruence.
Qed.

Lemma dismissAll_cancels_expiry_only_witness :
  reachable DEFAULT_CONFIG sample_created ∧
  timersRef (dismissAll sample_created) = ∅ ∧
  (∀ i, pending Expiry i (dismissAll sample_created) = []) ∧
  queue (dismissAll sample_created) =
    filter (λ t, timer_kind t = Purge) (queue sample_created).
Proof.
  assert (reachable DEFAULT_CONFIG sample_created) as H
    by apply reach_step, reach_init.
  split; [exact H|]. exact (dismissAll_cancels_expiry_only DEFAULT_CONFIG _ H).
Defined.

(** ** One timer of a kind per entry *)

(** C7 (counterexample): two [dismiss("a")] calls leave two purge timeouts
    pending for ["a"]. *)
Lemma two_purge_timers_pending :
  ¬ (∀ s, reachable DEFAULT_CONFIG s →
          ∀ k i, (length (pending k i s) ≤ 1)%nat).
Proof.
  intros H.
  specialize (H (apply DEFAULT_CONFIG (EDismiss "a") sample_dismissed)
                ltac:(apply reach_step, reach_step, reach_step, reach_init)
                Purge "a"%string).
  vm_compute in H. lia.
Qed.

Lemma filter_handle_short h q :
  NoDup (omap timer_handle q) →
  (length (filter (λ t, timer_handle t = Some h) q) ≤ 1)%nat.
Proof.
  induction q as [|t q IH]; simpl; [lia|]. intros Hnd.
  rewrite filter_cons. destruct (decide (timer_handle t = Some h)) as [Hh|Hh].
  - rewrite Hh in Hnd. apply NoDup_cons in Hnd as [Hnin _].
    assert (filter (λ t, timer_handle t = Some h) q = []) as ->; [|simpl; lia].
    destruct (filter _ q) as [|u q'] eqn:Hq; [done|]. exfalso. apply Hnin.
    assert (u ∈ filter (λ t, timer_handle t = Some h) q) as Hu by (rewrite Hq; by left).
    apply list_elem_of_filter in Hu as [Hu Hin].
    apply list_elem_of_omap. by exists u.
  - apply IH. destruct (timer_handle t); [by apply NoDup_cons in Hnd as [_ ?]|done].
Qed.

Lemma pending_expiry_short i s :
  timers_ok s → (length (pending Expiry i s) ≤ 1)%nat.
Proof.
  intros [_ _ H3 _ H5 _ _]. unfold pending.
  destruct (timersRef s !! i) as [h|] eqn:Hi.
  - etrans; [|apply (filter_handle_short h (queue s) H5)].
    apply sublist_length. clear H5.
    induction H3 as [|t q Ht _ IH]; [done|].
    rewrite !filter_cons.
    destruct (decide (timer_kind t = Expiry ∧ timer_id t = i)) as [[Hk Hid]|_].
    + rewrite Hk, Hid, Hi in Ht. destruct Ht as (h' & Hh' & [= ->]).
      rewrite decide_True by done. by constructor.
    + destruct (decide _); [by constructor|done].
  - assert (filter (λ t, timer_kind t = Expiry ∧ timer_id t = i) (queue s) = []) as ->;
      [|simpl; lia].
    clear H5. induction H3 as [|t q Ht _ IH]; [done|].
    rewrite filter_cons_False; [done|]. intros [Hk Hid].
    rewrite Hk, Hid, Hi in Ht. by destruct Ht as (? & _ & ?).
Qed.

(** C7 (amended): in every reachable state an id has at most one pending
    expiry timeout, and [setTimer] with a positive duration replaces it: the
    expiry timeouts pending for the id afterwards are exactly the new one.
    Purge timeouts are not tracked. *)
Theorem one_expiry_timer_per_id config s i :
  reachable config s →
  (length (pending Expiry i s) ≤ 1)%nat ∧
  ∀ d, 0 < d →
    pending Expiry i (setTimer i d s) =
      [mkTimer (Some (nextHandle s)) (clock s + d) Expiry i].
Proof.
  intros [Ht _]%reachable_wf. split; [by apply pending_expiry_short|].
  intros d Hd. by apply pending_expiry_setTimer.
Qed.

Lemma one_expiry_timer_per_id_witness :
  reachable DEFAULT_CONFIG sample_created ∧
  (length (pending Expiry "a" sample_created) ≤ 1)%nat ∧
  ∀ d, 0 < d →
    pending Expiry "a" (setTimer "a" d sample_created) =
      [mkTimer (Some (nextHandle sample_created)) (clock sample_created + d) Expiry "a"].
Proof.
  assert (reachable DEFAULT_CONFIG sample_created) as H
    by apply reach_step, reach_init.
  split; [exact H|]. exact (one_expiry_timer_per_id DEFAULT_CONFIG _ "a" H).
Defined.

(** ** [onClose] *)

Lemma close_events_of_serial l t :
  NoDup (toast_serial <$> l) → t ∈ l →
  filter (λ e : CloseEvent, e.1 = toast_serial t) (close_events l) =
  match toast_onClose t with
  | Some cb => [(toast_serial t, cb)]
  | None => []
  end.
Proof.
  intros Hnd Ht.
  induction l as [|u l IH]; [by apply elem_of_nil in Ht|].
  rewrite fmap_cons in Hnd. apply NoDup_cons in Hnd as [Hu Hl].
  assert (∀ v, v ∈ l → toast_serial v ≠ toast_serial u) as Hother.
  { intros v Hv Heq. apply Hu. rewrite <- Heq. by apply list_elem_of_fmap_2. }
  assert (∀ l', (∀ v, v ∈ l' → toast_serial v ≠ toast_serial u) →
     filter (λ e : CloseEvent, e.1 = toast_serial u) (close_events l') = []) as Hnone.
  { clear. induction l' as [|v l' IH]; intros Hall; [done|]. simpl.
    assert (filter (λ e : CloseEvent, e.1 = toast_serial u) (close_events l') = [])
      as Hrest by (apply IH; intros w Hw; apply Hall; by right).
    destruct (toast_onClose v); [|done].
    rewrite filter_cons_False; [done|]. simpl. apply Hall. by left. }
  apply elem_of_cons in Ht as [->|Ht]; simpl.
  - destruct (toast_onClose u) as [cb|]; [|by apply Hnone].
    rewrite filter_cons_True by done. by rewrite Hnone.
  - destruct (toast_onClose u) as [cb|]; [|by apply IH].
    rewrite filter_cons_False; [by apply IH|]. simpl.
    intros Heq. by apply (Hother t).
Qed.

(** C5: right after [dismissAll()] the published list is empty, no time has
    passed, and every entry that was in the list (removing or not) has had
    its [onClose], when it has one, run exactly once; an entry without
    [onClose] has no call logged. *)
Theorem dismissAll_closes_every_entry config s :
  reachable config s →
  toasts (dismissAll s) = [] ∧
  clock (dismissAll s) = clock s ∧
  ∀ t, t ∈ toasts s →
    filter (λ e : CloseEvent, e.1 = toast_serial t) (closed (dismissAll s)) =
    match toast_onClose t with
    | Some cb => [(toast_serial t, cb)]
    | None => []
    end.
Proof.
  intros [_ [_ H2 _ H4 _]]%reachable_wf. split; [done|]. split; [done|].
  intros t Ht. unfold dismissAll. simpl. rewrite filter_app.
  assert (filter (λ e : CloseEvent, e.1 = toast_serial t) (closed s) = []) as ->.
  { specialize (H4 t). clear -H4 Ht.
    induction (closed s) as [|e l IH]; [done|].
    rewrite filter_cons_False.
    - apply IH. intros e' ? He'. apply H4; [done|by right].
    - apply H4; [done|by left]. }
  by apply close_events_of_serial.
Qed.

Lemma dismissAll_closes_every_entry_witness :
  reachable DEFAULT_CONFIG sample_dismissed ∧
  toasts (dismissAll sample_dismissed) = [] ∧
  clock (dismissAll sample_dismissed) = clock sample_dismissed ∧
  ∀ t, t ∈ toasts sample_dismissed →
    filter (λ e : CloseEvent, e.1 = toast_serial t) (closed (dismissAll sample_dismissed)) =
    match toast_onClose t with
    | Some cb => [(toast_serial t, cb)]
    | None => []
    end.
Proof.
  assert (reachable DEFAULT_CONFIG sample_dismissed) as H
    by apply reach_step, reach_step, reach_init.
  split; [exact H|]. exact (dismissAll_closes_every_entry DEFAULT_CONFIG _ H).
Defined.

(** C10: whatever the interleaving of commands and timeouts, [onClose] runs
    at most once for an entry; in particular the purge timeout that fires
    after a [dismissAll] finds nothing to close. *)
Theorem onClose_at_most_once config s u :
  reachable config s → (close_count u s ≤ 1)%nat.
Proof.
  intros [_ [_ _ _ _ H5]]%reachable_wf. unfold close_count.
  induction (closed s) as [|e l IH]; simpl; [lia|].
  rewrite fmap_cons in H5. apply NoDup_cons in H5 as [He Hl].
  rewrite filter_cons. destruct (decide (e.1 = u)) as [<-|]; [|by apply IH].
  assert (filter (λ e' : CloseEvent, e'.1 = e.1) l = []) as ->; [|simpl; lia].
  clear -He. induction l as [|e' l IH]; [done|].
  rewrite filter_cons_False.
  - apply IH. intros Hin. apply He. rewrite fmap_cons. by right.
  - intros Heq. apply He. rewrite fmap_cons, Heq. by left.
Qed.

Lemma onClose_at_most_once_witness :
  reachable DEFAULT_CONFIG
    (apply DEFAULT_CONFIG (EAdvance 300)
       (apply DEFAULT_CONFIG EDismissAll sample_dismissed)) ∧
  (close_count 0 (apply DEFAULT_CONFIG (EAdvance 300)
       (apply DEFAULT_CONFIG EDismissAll sample_dismissed)) ≤ 1)%nat.
Proof.
  assert (reachable DEFAULT_CONFIG
    (apply DEFAULT_CONFIG (EAdvance 300)
       (apply DEFAULT_CONFIG EDismissAll sample_dismissed))) as H
    by apply reach_step, reach_step, reach_step, reach_step, reach_init.
  split; [exact H|]. exact (onClose_at_most_once DEFAULT_CONFIG _ 0%nat H).
Defined.

Example purge_after_dismissAll_closes_nothing :
  let s := apply DEFAULT_CONFIG EDismissAll sample_dismissed in
  queue s = [mkTimer None 300 Purge "a"] ∧
  closed s = [(0%nat, 9%nat)] ∧
  closed (apply DEFAULT_CONFIG (EAdvance 300) s) = [(0%nat, 9%nat)] ∧
  queue (apply DEFAULT_CONFIG (EAdvance 300) s) = [].
Proof. vm_compute. repeat split; reflexivity. Qed.

(** ** Capacity of a position slot *)

Lemma slice_to_take {A} (l : list A) n :
  0 ≤ n → slice l 0 (Some n) = take (Z.to_nat n) l.
Proof.
  intros Hn. unfold slice, slice_index. simpl.
  destruct (Z.ltb_spec n 0) as [|_]; [lia|].
  rewrite (Z.min_l 0) by lia. change (Z.to_nat 0) with 0%nat. rewrite drop_0.
  destruct (Z.le_ge_cases n (Z.of_nat (length l))).
  - by rewrite Z.min_l, Z.sub_0_r by lia.
  - rewrite Z.min_r, Z.sub_0_r by lia. rewrite !take_ge; [done|lia..].
Qed.

Lemma slice_to_drop {A} (l : list A) n :
  0 ≤ n → slice l n None = drop (Z.to_nat n) l.
Proof.
  intros Hn. unfold slice, slice_index.
  destruct (Z.ltb_spec n 0) as [|_]; [lia|].
  rewrite take_ge by (rewrite length_drop; lia).
  destruct (Z.le_ge_cases n (Z.of_nat (length l))).
  - by rewrite Z.min_l by lia.
  - rewrite Z.min_r by lia. rewrite !drop_ge; [done|lia..].
Qed.

Lemma insert_toast_toasts config t s :
  0 ≤ maxToasts config →
  toasts (insert_toast config t s) =
  take (Z.to_nat (maxToasts config)) (t :: bucket (toast_position t) s) ++
  filter (λ u, toast_position u ≠ toast_position t) (toasts s).
Proof.
  intros Hmax. unfold insert_toast, bucket.
  destruct (Z.gtb_spec (Z.of_nat (length (t :: filter (λ u, toast_position u = toast_position t)
                                            (toasts s)))) (maxToasts config)) as [Hgt|Hle].
  - cbn [toasts set_toasts]. by rewrite slice_to_take.
  - cbn [toasts set_toasts]. rewrite take_ge; [done|lia].
Qed.

Lemma filter_all {A} (P : A → Prop) `{!∀ x, Decision (P x)} l :
  Forall P l → filter P l = l.
Proof.
  induction 1 as [|x l Hx _ IH]; [done|]. by rewrite filter_cons_True, IH.
Qed.

Lemma filter_none {A} (P : A → Prop) `{!∀ x, Decision (P x)} l :
  Forall (λ x, ¬ P x) l → filter P l = [].
Proof.
  induction 1 as [|x l Hx _ IH]; [done|]. by rewrite filter_cons_False, IH.
Qed.

Lemma bucket_insert_toast config t s p :
  0 ≤ maxToasts config →
  (length (bucket p s) ≤ Z.to_nat (maxToasts config))%nat →
  bucket p (insert_toast config t s) =
  take (Z.to_nat (maxToasts config))
       (filter (λ u, toast_position u = p) [t] ++ bucket p s).
Proof.
  intros Hmax Hlen. unfold bucket at 1. rewrite insert_toast_toasts by done.
  rewrite filter_app, list_filter_filter.
  assert (Forall (λ u, toast_position u = toast_position t)
            (take (Z.to_nat (maxToasts config)) (t :: bucket (toast_position t) s))) as Hsame.
  { apply Forall_take. constructor; [done|].
    rewrite Forall_forall. by intros u [? _]%list_elem_of_filter. }
  destruct (decide (toast_position t = p)) as [<-|Hne].
  - rewrite filter_all by done.
    rewrite filter_none, app_nil_r; [|rewrite Forall_forall; intros u _ [? ?]; done].
    by rewrite filter_cons_True, filter_nil by done.
  - rewrite filter_none, app_nil_l;
      [|eapply Forall_impl; [exact Hsame|]; simpl; intros u -> ; done].
    rewrite filter_cons_False, filter_nil, app_nil_l by done.
    rewrite take_ge by done. unfold bucket. apply list_filter_iff.
    intros u. split; [by intros [? _]|]. intros <-. split; [done|]. congruence.
Qed.

Lemma createToast_frame config m o rnd s :
  closed (createToast config m o rnd s).2 = closed s ∧
  clock (createToast config m o rnd s).2 = clock s.
Proof.
  rewrite createToast_state. cbv zeta.
  set (t := new_toast config m o rnd s).
  destruct (insert_toast_frame config t (bump_serial s)) as (Hc & _ & Hk & _).
  destruct (_ >? _); [|done].
  by destruct (setTimer_frame (toast_id t) (toast_duration t)
                 (insert_toast config t (bump_serial s))) as (_ & -> & _ & ->).
Qed.

Lemma bucket_createToast config m o rnd s p :
  0 ≤ maxToasts config →
  (length (bucket p s) ≤ Z.to_nat (maxToasts config))%nat →
  bucket p (createToast config m o rnd s).2 =
  take (Z.to_nat (maxToasts config))
       (filter (λ u, toast_position u = p) [new_toast config m o rnd s] ++ bucket p s).
Proof.
  intros Hmax Hlen. unfold bucket at 1. rewrite toasts_createToast.
  by apply (bucket_insert_toast config _ (bump_serial s)).
Qed.

Lemma take_app_take {A} (l k : list A) n :
  take n (l ++ take n k) = take n (l ++ k).
Proof. rewrite !take_app, take_take. do 2 f_equal. lia. Qed.

Lemma creates_cons config c cs s :
  (creates config (c :: cs) s).1 =
    new_toast config c.1.1 c.1.2 c.2 s ::
    (creates config cs (createToast config c.1.1 c.1.2 c.2 s).2).1 ∧
  (creates config (c :: cs) s).2 =
    (creates config cs (createToast config c.1.1 c.1.2 c.2 s).2).2.
Proof. done. Qed.

Lemma bucket_creates config cs s p :
  0 ≤ maxToasts config →
  (length (bucket p s) ≤ Z.to_nat (maxToasts config))%nat →
  bucket p (creates config cs s).2 =
  take (Z.to_nat (maxToasts config))
       (filter (λ u, toast_position u = p) (reverse (creates config cs s).1) ++ bucket p s).
Proof.
  intros Hmax. revert s. induction cs as [|c cs IH]; intros s Hlen.
  - simpl. by rewrite take_ge.
  - destruct (creates_cons config c cs s) as [-> ->]. rewrite IH.
    + rewrite bucket_createToast by done. rewrite take_app_take.
      rewrite reverse_cons, filter_app, <- app_assoc. done.
    + rewrite bucket_createToast by done. rewrite length_take. lia.
Qed.

Lemma closed_creates config cs s : closed (creates config cs s).2 = closed s.
Proof.
  revert s. induction cs as [|c cs IH]; intros s; [done|].
  destruct (creates_cons config c cs s) as [_ ->].
  rewrite IH. apply createToast_frame.
Qed.

Lemma creates_reachable config cs s :
  reachable config s → reachable config (creates config cs s).2.
Proof.
  revert s. induction cs as [|c cs IH]; intros s Hs; [done|].
  destruct (creates_cons config c cs s) as [_ ->].
  apply IH. apply (reach_step config s (ECreate c.1.1 c.1.2 c.2) Hs).
Qed.

Lemma creates_positions config cs s p :
  Forall (λ c, call_position config c = p) cs →
  Forall (λ t, toast_position t = p) (creates config cs s).1.
Proof.
  intros Hcs. revert s. induction Hcs as [|c cs Hc _ IH]; intros s.
  - constructor.
  - destruct (creates_cons config c cs s) as [-> _].
    constructor; [exact Hc|apply IH].
Qed.

Lemma pending_expiry_none i s :
  timers_ok s → timersRef s !! i = None → pending Expiry i s = [].
Proof.
  intros [_ _ H3 _ _ _ _] Hi. unfold pending.
  induction H3 as [|t q Ht _ IH]; [done|].
  rewrite filter_cons_False; [done|]. intros [Hk Hid].
  rewrite Hk, Hid, Hi in Ht. by destruct Ht as (? & _ & ?).
Qed.

Lemma timersRef_setTimer_ne i j d s :
  i ≠ j → timersRef (setTimer i d s) !! j = timersRef s !! j.
Proof.
  intros Hne. unfold setTimer. destruct (d <=? 0); [done|]. simpl.
  by rewrite lookup_insert_ne, timersRef_clearTimer, lookup_delete_ne.
Qed.

Lemma queue_setTimer i d s :
  0 < d →
  queue (setTimer i d s) =
  enqueue (mkTimer (Some (nextHandle s)) (clock s + d) Expiry i) (queue (clearTimer i s)).
Proof.
  intros Hd. unfold setTimer. destruct (Z.leb_spec d 0); [lia|]. simpl.
  by destruct (clearTimer_frame i s) as (_ & _ & _ & -> & ->).
Qed.

Lemma queue_clearTimer_sublist i s : queue (clearTimer i s) `sublist_of` queue s.
Proof.
  rewrite queue_clearTimer. destruct (timersRef s !! i); [|done].
  apply sublist_filter.
Qed.

Lemma evict_queue_sublist (l : list Toast) s :
  queue (foldl (λ acc t, clearTimer (toast_id t) acc) s l) `sublist_of` queue s.
Proof.
  revert s. induction l as [|t l IH]; intros s; simpl; [done|].
  etrans; [apply IH|apply queue_clearTimer_sublist].
Qed.

Lemma queue_insert_toast_sublist config t s :
  queue (insert_toast config t s) `sublist_of` queue s.
Proof.
  unfold insert_toast. destruct (_ >? _); [|done].
  cbn [queue set_toasts]. apply evict_queue_sublist.
Qed.

Lemma evict_cancels_handle (l : list Toast) s i h :
  i ∈ toast_id <$> l → timersRef s !! i = Some h →
  ∀ tm, tm ∈ queue (foldl (λ acc t, clearTimer (toast_id t) acc) s l) →
        timer_handle tm ≠ Some h.
Proof.
  revert s. induction l as [|t l IH]; intros s Hi Hh tm Htm; [by apply elem_of_nil in Hi|].
  rewrite fmap_cons in Hi. cbn [foldl] in Htm.
  destruct (decide (toast_id t = i)) as [Heq|Hne].
  - eapply elem_of_sublist in Htm; [|apply evict_queue_sublist].
    rewrite queue_clearTimer, Heq, Hh in Htm.
    by apply list_elem_of_filter in Htm as [? _].
  - apply elem_of_cons in Hi as [->|Hi]; [done|].
    eapply (IH (clearTimer (toast_id t) s)); [done| |done].
    by rewrite timersRef_clearTimer, lookup_delete_ne.
Qed.

Lemma evicted_handles_cancelled config m o rnd s e h :
  0 ≤ maxToasts config → timers_ok s →
  let t := new_toast config m o rnd s in
  e ∈ drop (Z.to_nat (maxToasts config)) (t :: bucket (toast_position t) s) →
  timersRef s !! toast_id e = Some h →
  ∀ tm, tm ∈ queue (createToast config m o rnd s).2 → timer_handle tm ≠ Some h.
Proof.
  intros Hmax Hs t He Hh.
  assert (∀ tm, tm ∈ queue (insert_toast config t (bump_serial s)) →
                timer_handle tm ≠ Some h) as Hins.
  { unfold insert_toast.
    destruct (Z.gtb_spec (Z.of_nat (length (t :: filter (λ u, toast_position u = toast_position t)
                  (toasts (bump_serial s))))) (maxToasts config)) as [Hgt|Hle].
    - cbn [queue set_toasts]. rewrite slice_to_drop by done.
      apply (evict_cancels_handle _ (bump_serial s) (toast_id e)); [|done].
      by apply list_elem_of_fmap_2.
    - rewrite drop_ge in He; [by apply elem_of_nil in He|].
      unfold bucket. cbn [toasts bump_serial] in Hle. simpl in *. lia. }
  rewrite createToast_state. cbv zeta. fold t.
  destruct (Z.gtb_spec (toast_duration t) 0) as [Hd|Hd]; [|done].
  intros tm. rewrite queue_setTimer by lia.
  intros [->|Htm]%elem_of_enqueue.
  - simpl. destruct (insert_toast_frame config t (bump_serial s)) as (_ & _ & _ & ->).
    simpl. destruct Hs as [_ _ _ _ _ _ Hfresh]. apply Hfresh in Hh.
    intros [= Heq]. lia.
  - apply Hins. eapply elem_of_sublist; [exact Htm|apply queue_clearTimer_sublist].
Qed.

Lemma evicted_timers_cancelled config m o rnd s e :
  0 ≤ maxToasts config → timers_ok s →
  let t := new_toast config m o rnd s in
  e ∈ drop (Z.to_nat (maxToasts config)) (t :: bucket (toast_position t) s) →
  toast_id e ≠ toast_id t →
  timersRef (createToast config m o rnd s).2 !! toast_id e = None ∧
  pending Expiry (toast_id e) (createToast config m o rnd s).2 = [].
Proof.
  intros Hmax Hs t He Hne.
  assert (timersRef (createToast config m o rnd s).2 !! toast_id e = None) as Hnone.
  { rewrite createToast_state. cbv zeta. fold t.
    assert (timersRef (insert_toast config t (bump_serial s)) !! toast_id e = None) as Hins.
    { unfold insert_toast.
      destruct (Z.gtb_spec (Z.of_nat (length (t :: filter (λ u, toast_position u = toast_position t)
                    (toasts (bump_serial s))))) (maxToasts config)) as [Hgt|Hle].
      - cbn [timersRef set_toasts]. rewrite evict_timersRef, slice_to_drop by done.
        rewrite decide_True; [done|]. by apply list_elem_of_fmap_2.
      - rewrite drop_ge in He; [by apply elem_of_nil in He|].
        unfold bucket. cbn [toasts bump_serial] in Hle. simpl in *. lia. }
    destruct (_ >? _); [|done]. by rewrite timersRef_setTimer_ne. }
  split; [done|]. apply pending_expiry_none; [|done]. by apply timers_ok_createToast.
Qed.

(** C2: starting from the empty manager with a non-negative [maxToasts],
    after any run of creates every slot holds the [maxToasts] most recently
    created entries of its position, newest first, hence at most [maxToasts];
    [N > maxToasts] creates into one position leave exactly the [maxToasts]
    newest; no [onClose] has run; and a further create keeps the newest
    [maxToasts] of its slot, leaves the other slots alone, runs no [onClose],
    and cancels the timers of the entries it evicts: no pending timeout carries
    a handle that was registered under the id of an evicted entry, and no
    expiry timer is registered or pending under that id afterwards (unless it
    is the id of the entry being created, whose own timer is then started). *)
Theorem create_capacity config cs :
  0 ≤ maxToasts config →
  let built := (creates config cs init).1 in
  let s := (creates config cs init).2 in
  let n := Z.to_nat (maxToasts config) in
  (∀ p, bucket p s = take n (filter (λ t, toast_position t = p) (reverse built))) ∧
  (∀ p, Z.of_nat (length (bucket p s)) ≤ maxToasts config) ∧
  (∀ p, Forall (λ c, call_position config c = p) cs →
        maxToasts config < Z.of_nat (length cs) →
        toasts s = take n (reverse built) ∧
        Z.of_nat (length (toasts s)) = maxToasts config) ∧
  closed s = [] ∧
  (∀ m o rnd,
     let t := new_toast config m o rnd s in
     let s' := (createToast config m o rnd s).2 in
     toasts s' = take n (t :: bucket (toast_position t) s) ++
                 filter (λ u, toast_position u ≠ toast_position t) (toasts s) ∧
     closed s' = [] ∧
     ∀ e, e ∈ drop n (t :: bucket (toast_position t) s) →
          (∀ h tm, timersRef s !! toast_id e = Some h → tm ∈ queue s' →
                   timer_handle tm ≠ Some h) ∧
          (toast_id e ≠ toast_id t →
           timersRef s' !! toast_id e = None ∧ pending Expiry (toast_id e) s' = [])).
Proof.
  intros Hmax built s n.
  assert (∀ p, bucket p s = take n (filter (λ t, toast_position t = p) (reverse built)))
    as Hbucket.
  { intros p. unfold s, built, n. rewrite bucket_creates; [|done|simpl; lia].
    unfold bucket at 1. simpl. by rewrite app_nil_r. }
  assert (closed s = []) as Hclosed by apply closed_creates.
  assert (length built = length cs) as Hlen.
  { unfold built. generalize init. clear.
    induction cs as [|c cs IH]; intros s; [done|].
    destruct (creates_cons config c cs s) as [-> _]. simpl. by rewrite IH. }
  split; [done|]. split; [|split; [|split; [done|]]].
  - intros p. rewrite Hbucket, length_take. lia.
  - intros p Hcs HN.
    assert (Forall (λ t, toast_position t = p) (reverse built)) as Hpos.
    { apply Forall_reverse. by apply creates_positions. }
    assert (toasts s = bucket p s) as ->.
    { unfold bucket. symmetry. apply filter_all.
      rewrite Forall_forall. intros t Ht.
      assert (∀ q, bucket q s = filter (λ u, toast_position u = q) (toasts s)) as Hb by done.
      assert (t ∈ bucket (toast_position t) s) as Hin
        by (rewrite Hb; apply list_elem_of_filter; done).
      rewrite Hbucket in Hin. apply elem_of_take in Hin as (i & Hin & _).
      apply list_elem_of_lookup_2 in Hin.
      apply list_elem_of_filter in Hin as [_ Hin].
      rewrite Forall_forall in Hpos. by apply Hpos. }
    rewrite Hbucket, filter_all by done. split; [done|].
    rewrite length_take, length_reverse. lia.
  - intros m o rnd t s'. split; [|split].
    + unfold s'. rewrite toasts_createToast.
      apply (insert_toast_toasts config t (bump_serial s) Hmax).
    + unfold s'. destruct (createToast_frame config m o rnd s) as [-> _]. done.
    + assert (timers_ok s) as Hok
        by (apply (reachable_wf config); apply creates_reachable, reach_init).
      intros e He. split.
      * intros h tm Hh Htm. by eapply (evicted_handles_cancelled config m o rnd s e h).
      * intros Hne. by apply evicted_timers_cancelled.
Qed.

Lemma create_capacity_witness :
  0 ≤ maxToasts DEFAULT_CONFIG ∧
  (∀ p, Z.of_nat (length (bucket p (creates DEFAULT_CONFIG six_calls init).2))
        ≤ maxToasts DEFAULT_CONFIG) ∧
  closed (creates DEFAULT_CONFIG six_calls init).2 = [].
Proof.
  assert (0 ≤ maxToasts DEFAULT_CONFIG) as H by (vm_compute; discriminate).
  split; [exact H|].
  pose proof (create_capacity DEFAULT_CONFIG six_calls H) as (_ & Hsize & _ & Hclosed & _).
  split; [exact Hsize|exact Hclosed].
Defined.

Example six_creates_keep_five :
  let s := (creates DEFAULT_CONFIG six_calls init).2 in
  ids s = ["t6"; "t5"; "t4"; "t3"; "t2"]%string ∧
  closed s = [] ∧
  timersRef s !! "t1"%string = None ∧
  pending Expiry "t1" s = [] ∧
  closed (flush s) = [(1, 2); (2, 3); (3, 4); (4, 5); (5, 6)]%nat.
Proof. vm_compute. repeat split; reflexivity. Qed.

(** ** The fields after [dismiss], [purge] and [tick] *)

Lemma state_eq (a b : State) :
  toasts a = toasts b → timersRef a = timersRef b → queue a = queue b →
  clock a = clock b → nextHandle a = nextHandle b → nextSerial a = nextSerial b →
  closed a = closed b → a = b.
Proof. destruct a, b. simpl. by intros -> -> -> -> -> -> ->. Qed.

Lemma dismiss_fields i s :
  toasts (dismiss i s) =
    (λ t, if decide (toast_id t = i) then mark_removing t else t) <$> toasts s ∧
  timersRef (dismiss i s) = delete i (timersRef s) ∧
  queue (dismiss i s) =
    enqueue (mkTimer None (clock s + 300) Purge i) (queue (clearTimer i s)) ∧
  clock (dismiss i s) = clock s ∧
  nextHandle (dismiss i s) = nextHandle s ∧
  nextSerial (dismiss i s) = nextSerial s ∧
  closed (dismiss i s) = closed s.
Proof.
  unfold dismiss, setTimeout_dropped. simpl.
  destruct (clearTimer_frame i s) as (-> & -> & -> & -> & ->).
  by rewrite timersRef_clearTimer.
Qed.

Lemma purge_fields i s :
  toasts (purge i s) = filter (λ t, toast_id t ≠ i) (toasts s) ∧
  closed (purge i s) = closed s ++ purge_log i (toasts s) ∧
  timersRef (purge i s) = timersRef s ∧
  queue (purge i s) = queue s ∧
  clock (purge i s) = clock s ∧
  nextHandle (purge i s) = nextHandle s ∧
  nextSerial (purge i s) = nextSerial s.
Proof.
  unfold purge, purge_log.
  destruct (find _ _) as [t|]; [destruct (toast_onClose t)|]; simpl;
    by rewrite ?app_nil_r.
Qed.

Lemma purge_purge i s : purge i (purge i s) = purge i s.
Proof.
  destruct (purge_fields i (purge i s)) as (Ht & Hc & Hm & Hq & Hk & Hh & Hn).
  destruct (purge_fields i s) as (Ht' & Hc' & _).
  apply state_eq; try done.
  - rewrite Ht, Ht', list_filter_filter. apply list_filter_iff. tauto.
  - rewrite Hc. unfold purge_log.
    assert (find (λ t, bool_decide (toast_id t = i)) (toasts (purge i s)) = None) as ->.
    { apply find_id_None. rewrite Ht'. by intros t [? _]%list_elem_of_filter. }
    by rewrite app_nil_r.
Qed.

(** ** [dismiss] twice *)

Lemma doubled_filter (P : Timer → Prop) `{!∀ t, Decision (P t)} qa qb :
  (∀ t, timer_handle t = None → P t) →
  doubled qa qb → doubled (filter P qa) (filter P qb).
Proof.
  intros HP (q1 & q2 & pg & Hh & Hk & -> & ->).
  exists (filter P q1), (filter P q2), pg.
  rewrite !filter_app, !filter_cons_True by auto. done.
Qed.

Lemma enqueue_app_stay t q1 q2 :
  Exists (λ u, timer_due t < timer_due u) q1 →
  enqueue t (q1 ++ q2) = enqueue t q1 ++ q2.
Proof.
  induction 1 as [u q1 Hu|u q1 _ IH]; simpl.
  - destruct (Z.leb_spec (timer_due u) (timer_due t)); [lia|done].
  - destruct (timer_due u <=? timer_due t); [by rewrite IH|done].
Qed.

Lemma enqueue_app_pass t q1 q2 :
  Forall (λ u, timer_due u ≤ timer_due t) q1 →
  enqueue t (q1 ++ q2) = q1 ++ enqueue t q2.
Proof.
  induction 1 as [|u q1 Hu _ IH]; simpl; [done|].
  destruct (Z.leb_spec (timer_due u) (timer_due t)); [by rewrite IH|lia].
Qed.

Lemma enqueue_split_le t q :
  ∃ q1 q2, q = q1 ++ q2 ∧ enqueue t q = q1 ++ t :: q2 ∧
           Forall (λ u, timer_due u ≤ timer_due t) q1 ∧ enqueue t q2 = t :: q2.
Proof.
  induction q as [|u q IH]; simpl.
  - exists [], []. by repeat split.
  - destruct (Z.leb_spec (timer_due u) (timer_due t)) as [Hle|Hgt].
    + destruct IH as (q1 & q2 & -> & -> & Hq1 & Hq2).
      exists (u :: q1), q2. repeat split; try done. by constructor.
    + exists [], (u :: q). repeat split; try done. simpl.
      destruct (Z.leb_spec (timer_due u) (timer_due t)); [lia|done].
Qed.

Lemma doubled_enqueue t qa qb :
  doubled qa qb → doubled (enqueue t qa) (enqueue t qb).
Proof.
  intros (q1 & q2 & pg & Hh & Hk & -> & ->).
  destruct (decide (Forall (λ u, timer_due u ≤ timer_due t) q1)) as [Hall|Hex].
  - rewrite !enqueue_app_pass by done. simpl.
    destruct (Z.leb_spec (timer_due pg) (timer_due t)).
    + exists q1, (enqueue t q2), pg. done.
    + exists (q1 ++ [t]), q2, pg. by rewrite <- !app_assoc.
  - apply not_Forall_Exists in Hex; [|intros u; apply _].
    assert (Exists (λ u, timer_due t < timer_due u) q1) as Hex'
      by (eapply Exists_impl; [exact Hex|]; simpl; intros; lia).
    rewrite !enqueue_app_stay by done.
    exists (enqueue t q1), q2, pg. done.
Qed.

Lemma one_more_purge_fire t a b :
  one_more_purge a b → one_more_purge (fire t a) (fire t b).
Proof.
  intros (Ht & Hm & Hc & Hh & Hn & Hcl & Hq). unfold fire, one_more_purge.
  destruct (timer_kind t).
  - destruct (dismiss_fields (timer_id t) a) as (-> & -> & -> & -> & -> & -> & ->).
    destruct (dismiss_fields (timer_id t) b) as (-> & -> & -> & -> & -> & -> & ->).
    rewrite Ht, Hm, Hc, Hh, Hn, Hcl. repeat split; try done.
    apply doubled_enqueue. rewrite !queue_clearTimer, <- Hm.
    destruct (timersRef a !! timer_id t); [|done].
    apply doubled_filter; [|done]. intros u ->. done.
  - destruct (purge_fields (timer_id t) a) as (-> & -> & -> & -> & -> & -> & ->).
    destruct (purge_fields (timer_id t) b) as (-> & -> & -> & -> & -> & -> & ->).
    rewrite Ht, Hm, Hc, Hh, Hn, Hcl. done.
Qed.

Lemma one_more_purge_flush a b :
  one_more_purge a b → flush a = flush b.
Proof.
  unfold flush. remember (weight (queue a)) as n eqn:Hn.
  revert a b Hn. induction (lt_wf n) as [n _ IH]. intros a b -> Hab.
  destruct Hab as (Ht & Hm & Hc & Hh & Hs & Hcl & (q1 & q2 & pg & Hpg & Hk & Hqa & Hqb)).
  destruct q1 as [|t q1].
  - simpl in Hqa, Hqb.
    rewrite (run_step None a pg q2), (run_step None b pg (pg :: q2)) by done.
    set (i := timer_id pg). set (d := timer_due pg).
    set (sa := set_clock (Z.max (clock a) d) (set_queue q2 a)).
    set (sb := set_clock (Z.max (clock b) d) (set_queue (pg :: q2) b)).
    assert (tick a = purge i sa) as Ha by (unfold tick, fire; by rewrite Hqa, Hk).
    assert (tick b = purge i sb) as Hb by (unfold tick, fire; by rewrite Hqb, Hk).
    assert (queue (tick b) = pg :: q2) as Hq' by (by rewrite Hb, queue_purge).
    rewrite (run_step None (tick b) pg q2) by done.
    f_equal. rewrite Ha, <- (purge_purge i sa).
    unfold tick at 1. rewrite Hq'. unfold fire. rewrite Hk. fold i d.
    f_equal. rewrite Hb.
    destruct (purge_fields i sa) as (Ht1 & Hc1 & Hm1 & Hq1 & Hk1 & Hh1 & Hn1).
    destruct (purge_fields i sb) as (Ht2 & Hc2 & Hm2 & Hq2 & Hk2 & Hh2 & Hn2).
    apply state_eq;
      cbn [toasts timersRef queue clock nextHandle nextSerial closed set_clock set_queue];
      rewrite ?Ht1, ?Hc1, ?Hm1, ?Hq1, ?Hk1, ?Hh1, ?Hn1,
        ?Ht2, ?Hc2, ?Hm2, ?Hk2, ?Hh2, ?Hn2;
      unfold sa, sb;
      cbn [toasts timersRef queue clock nextHandle nextSerial closed set_clock set_queue];
      try congruence.
    rewrite Hc. lia.
  - simpl in Hqa, Hqb.
    rewrite (run_step None a t (q1 ++ pg :: q2)), (run_step None b t (q1 ++ pg :: pg :: q2))
      by done.
    eapply IH; [|reflexivity|].
    + by eapply weight_tick.
    + unfold tick. rewrite Hqa, Hqb. apply one_more_purge_fire.
      simpl. rewrite Hc. repeat split; try done.
      by exists q1, q2, pg.
Qed.

(** C6: a second [dismiss(id)] next to the first changes neither the
    published list, nor [timersRef], nor the [onClose] log, and once every
    scheduled timeout has run the two states are the same; no timeout is left
    over. *)
Theorem dismiss_twice_same_outcome i s :
  toasts (dismiss i (dismiss i s)) = toasts (dismiss i s) ∧
  timersRef (dismiss i (dismiss i s)) = timersRef (dismiss i s) ∧
  closed (dismiss i (dismiss i s)) = closed (dismiss i s) ∧
  flush (dismiss i (dismiss i s)) = flush (dismiss i s) ∧
  queue (flush (dismiss i s)) = [].
Proof.
  destruct (dismiss_fields i (dismiss i s)) as (Ht & Hm & Hq & Hc & Hh & Hn & Hcl).
  destruct (dismiss_fields i s) as (Ht' & Hm' & Hq' & Hc' & Hh' & Hn' & Hcl').
  assert (toasts (dismiss i (dismiss i s)) = toasts (dismiss i s)) as Htoasts.
  { rewrite Ht, Ht', <- list_fmap_compose. apply list_fmap_ext.
    intros _ t _. simpl. destruct (decide (toast_id t = i)) as [Hi|Hi]; simpl.
    - by rewrite decide_True.
    - by rewrite decide_False. }
  assert (timersRef (dismiss i (dismiss i s)) = timersRef (dismiss i s)) as Href.
  { rewrite Hm, Hm'. by rewrite delete_delete_eq. }
  split; [done|]. split; [done|]. split; [congruence|].
  split; [|apply flush_queue].
  symmetry. apply one_more_purge_flush.
  repeat split; try congruence.
  rewrite Hq, queue_clearTimer, Hm', lookup_delete_eq, Hq', Hc'.
  set (pg := mkTimer None (clock s + 300) Purge i).
  destruct (enqueue_split_le pg (queue (clearTimer i s)))
    as (q1 & q2 & Hsplit & Henq & Hq1 & Hq2).
  rewrite Henq. exists q1, q2, pg. repeat split; try done.
  rewrite enqueue_app_pass by done. cbn [enqueue].
  by rewrite Z.leb_refl, Hq2.
Qed.

(** ** Commands on an id that matches no entry *)

Lemma timers_ok_tick s : timers_ok s → timers_ok (tick s).
Proof.
  intros Hs. unfold tick. destruct (queue s) as [|t q] eqn:Hq; [done|].
  pose proof (timers_ok_pop s t q Hq Hs). unfold fire.
  destruct (timer_kind t); [by apply timers_ok_dismiss|by apply timers_ok_purge].
Qed.

Lemma agree_off_sym x a b : agree_off x a b → agree_off x b a.
Proof.
  intros (Ht & Hc & Hq & Hm & Hx & Ha & Hb).
  split_agree; try done. by rewrite <- Ht.
Qed.

Lemma agree_off_refl x s :
  timers_ok s → (∀ t, t ∈ toasts s → toast_id t ≠ x) → agree_off x s s.
Proof. intros. by split_agree. Qed.

Lemma others_enqueue_own x t q :
  timer_id t = x → others x (enqueue t q) = others x q.
Proof.
  intros Ht. unfold others.
  destruct (enqueue_split t q) as (q1 & q2 & -> & ->).
  rewrite !filter_app, filter_cons_False; [done|]. intros Hne. by apply Hne.
Qed.

Lemma enqueue_early t q :
  Forall (λ u, timer_due t < timer_due u) q → enqueue t q = t :: q.
Proof.
  destruct 1 as [|u q Hu _]; simpl; [done|].
  destruct (Z.leb_spec (timer_due u) (timer_due t)); [lia|done].
Qed.

Lemma others_enqueue_other x t q :
  timer_id t ≠ x → sorted q → others x (enqueue t q) = enqueue t (others x q).
Proof.
  intros Ht. unfold others. induction q as [|u q IH]; intros Hq; simpl.
  - by rewrite filter_cons_True, filter_nil.
  - destruct Hq as [Hu Hq].
    destruct (Z.leb_spec (timer_due u) (timer_due t)) as [Hle|Hgt].
    + rewrite !filter_cons. destruct (decide (timer_id u ≠ x)).
      * simpl. destruct (Z.leb_spec (timer_due u) (timer_due t)); [|lia].
        by rewrite IH.
      * by apply IH.
    + rewrite filter_cons_True by done. symmetry. f_equal. apply enqueue_early.
      apply Forall_filter_keep. constructor; [done|].
      eapply Forall_impl; [exact Hu|]. simpl. intros; lia.
Qed.

Lemma others_clearTimeout_own x h s q :
  timers_ok s → timersRef s !! x = Some h → q `sublist_of` queue s →
  others x (clearTimeout h q) = others x q.
Proof.
  intros [_ _ _ H4 _ _ _] Hx Hq. unfold others, clearTimeout.
  rewrite list_filter_filter.
  assert (∀ t, t ∈ q → t ∈ queue s) as Hin by (intros t Ht; by eapply elem_of_sublist).
  clear Hq. induction q as [|t q IH]; [done|].
  rewrite !filter_cons.
  assert (filter (λ a, timer_id a ≠ x ∧ timer_handle a ≠ Some h) q =
          filter (λ t, timer_id t ≠ x) q) as ->
    by (apply IH; intros u Hu; apply Hin; by right).
  destruct (decide (timer_id t ≠ x)) as [Hne|Heq].
  - rewrite decide_True; [done|]. split; [done|]. intros Hh.
    apply Hne. eapply H4; [done| |done]. apply Hin. by left.
  - rewrite decide_False; [done|]. by intros [? _].
Qed.

Lemma others_clearTimer_own x s :
  timers_ok s → others x (queue (clearTimer x s)) = others x (queue s).
Proof.
  intros Hs. rewrite queue_clearTimer.
  destruct (timersRef s !! x) as [h|] eqn:Hx; [|done].
  by eapply others_clearTimeout_own.
Qed.

Lemma fmap_id_no_match {A} (P : A → Prop) `{!∀ a, Decision (P a)} (f : A → A)
    (l : list A) :
  (∀ a, a ∈ l → ¬ P a) → (λ a, if decide (P a) then f a else a) <$> l = l.
Proof.
  induction l as [|a l IH]; intros Hl; [done|].
  rewrite fmap_cons, IH by (intros b Hb; apply Hl; by right).
  rewrite decide_False; [done|]. apply Hl. by left.
Qed.

Lemma agree_off_dismiss x a b : agree_off x a b → agree_off x (dismiss x a) b.
Proof.
  intros (Ht & Hc & Hq & Hm & Hx & Ha & Hb).
  destruct (dismiss_fields x a) as (Ht1 & Hm1 & Hq1 & Hk1 & Hh1 & Hn1 & Hc1).
  assert (toasts (dismiss x a) = toasts a) as Hsame.
  { rewrite Ht1. by apply (fmap_id_no_match (λ t, toast_id t = x)). }
  unfold agree_off. rewrite Hsame, Hc1, Hm1, Hq1.
  rewrite others_enqueue_own by done. rewrite others_clearTimer_own by done.
  rewrite delete_delete_eq.
  split_agree; try done. by apply timers_ok_dismiss.
Qed.

Lemma agree_off_purge x a b : agree_off x a b → agree_off x (purge x a) b.
Proof.
  intros (Ht & Hc & Hq & Hm & Hx & Ha & Hb).
  destruct (purge_fields x a) as (Ht1 & Hc1 & Hm1 & Hq1 & Hk1 & Hh1 & Hn1).
  assert (toasts (purge x a) = toasts a) as Hsame.
  { rewrite Ht1. apply filter_all. by rewrite Forall_forall. }
  assert (purge_log x (toasts a) = []) as Hlog.
  { unfold purge_log. by rewrite (proj2 (find_id_None x (toasts a)) Hx). }
  unfold agree_off. rewrite Hsame, Hc1, Hlog, app_nil_r, Hm1, Hq1.
  split_agree; try done. by apply timers_ok_purge.
Qed.

Lemma agree_off_setTimer x d a b : agree_off x a b → agree_off x (setTimer x d a) b.
Proof.
  intros (Ht & Hc & Hq & Hm & Hx & Ha & Hb).
  pose proof (timers_ok_setTimer x d a Ha) as Hok.
  destruct (setTimer_frame x d a) as (Ht1 & Hc1 & _).
  unfold agree_off. rewrite Ht1, Hc1.
  split_agree; try done.
  - rewrite <- Hq. unfold setTimer. destruct (d <=? 0); [done|]. simpl.
    rewrite others_enqueue_own by done. by apply others_clearTimer_own.
  - rewrite <- Hm. unfold setTimer. destruct (d <=? 0); [done|]. simpl.
    by rewrite delete_insert_eq, timersRef_clearTimer, delete_delete_eq.
Qed.

Lemma agree_off_update x m o a b : agree_off x a b → agree_off x (update x m o a) b.
Proof.
  intros (Ht & Hc & Hq & Hm & Hx & Ha & Hb). unfold update.
  assert ((λ t, if decide (toast_id t = x) then merge t m o else t) <$> toasts a = toasts a)
    as -> by (by apply (fmap_id_no_match (λ t, toast_id t = x))).
  assert (agree_off x (set_toasts (toasts a) a) b) as Hsame.
  { split_agree; try done. eapply timers_ok_ext; [..|exact Ha]; done. }
  destruct (opt_duration o); [by apply agree_off_setTimer|done].
Qed.

Lemma agree_off_pop x a b t q :
  agree_off x a b → queue a = t :: q → timer_id t = x →
  agree_off x (set_clock (Z.max (clock a) (timer_due t)) (set_queue q a)) b.
Proof.
  intros (Ht & Hc & Hq & Hm & Hx & Ha & Hb) Hqa Hid.
  split_agree; try done; simpl.
  - rewrite <- Hq, Hqa. unfold others. rewrite filter_cons_False; [done|].
    intros Hne. by apply Hne.
  - by apply timers_ok_pop.
Qed.

Lemma agree_off_tick_own x a b t q :
  agree_off x a b → queue a = t :: q → timer_id t = x → agree_off x (tick a) b.
Proof.
  intros Hab Hqa Hid. unfold tick. rewrite Hqa. unfold fire. rewrite Hid.
  pose proof (agree_off_pop x a b t q Hab Hqa Hid).
  destruct (timer_kind t); [by apply agree_off_dismiss|by apply agree_off_purge].
Qed.

Lemma agree_off_tick_other x a b t qa qb :
  agree_off x a b → queue a = t :: qa → queue b = t :: qb → timer_id t ≠ x →
  agree_off x (tick a) (tick b).
Proof.
  intros (Ht & Hc & Hq & Hm & Hx & Ha & Hb) Hqa Hqb Hid.
  pose proof (timers_ok_tick a Ha) as Ha'. pose proof (timers_ok_tick b Hb) as Hb'.
  assert (Z.max (clock a) (timer_due t) = Z.max (clock b) (timer_due t)) as Hclock.
  { destruct Ha as [_ Hca _ _ _ _ _], Hb as [_ Hcb _ _ _ _ _].
    rewrite Hqa in Hca. rewrite Hqb in Hcb.
    apply Forall_cons in Hca as [? _]. apply Forall_cons in Hcb as [? _]. lia. }
  assert (others x qa = others x qb) as Hrest.
  { rewrite Hqa, Hqb in Hq. unfold others in *.
    rewrite !filter_cons_True in Hq by done. by simplify_eq. }
  assert (timersRef a !! timer_id t = timersRef b !! timer_id t) as Hlook.
  { rewrite <- (lookup_delete_ne (timersRef a) x (timer_id t)) by done.
    rewrite <- (lookup_delete_ne (timersRef b) x (timer_id t)) by done.
    by rewrite Hm. }
  pose proof (timers_ok_pop a t qa Hqa Ha) as Hpa.
  pose proof (timers_ok_pop b t qb Hqb Hb) as Hpb.
  revert Ha' Hb'. unfold tick. rewrite Hqa, Hqb. unfold fire.
  set (pa := set_clock (Z.max (clock a) (timer_due t)) (set_queue qa a)) in *.
  set (pb := set_clock (Z.max (clock b) (timer_due t)) (set_queue qb b)) in *.
  destruct (timer_kind t); intros Ha' Hb'.
  - destruct (dismiss_fields (timer_id t) pa) as (Ht1 & Hm1 & Hq1 & _ & _ & _ & Hc1).
    destruct (dismiss_fields (timer_id t) pb) as (Ht2 & Hm2 & Hq2 & _ & _ & _ & Hc2).
    unfold agree_off. rewrite Ht1, Ht2, Hm1, Hm2, Hq1, Hq2, Hc1, Hc2.
    split_agree; try done.
    + simpl. by rewrite Ht.
    + rewrite !others_enqueue_other;
        [|done|apply timers_ok_clearTimer, Hpb|done|apply timers_ok_clearTimer, Hpa].
      simpl. rewrite Hclock. f_equal.
      rewrite !queue_clearTimer. simpl. rewrite <- Hlook.
      destruct (timersRef a !! timer_id t) as [h|]; [|done].
      unfold others, clearTimeout in *.
      rewrite !list_filter_filter.
      rewrite (list_filter_iff _ (λ u, timer_handle u ≠ Some h ∧ timer_id u ≠ x) qa) by tauto.
      rewrite (list_filter_iff _ (λ u, timer_handle u ≠ Some h ∧ timer_id u ≠ x) qb) by tauto.
      rewrite <- !list_filter_filter. by rewrite Hrest.
    + simpl. rewrite !(delete_delete (timersRef _) x). by rewrite Hm.
    + simpl. intros u (u' & -> & Hu')%list_elem_of_fmap.
      destruct (decide _); simpl; by apply Hx.
  - destruct (purge_fields (timer_id t) pa) as (Ht1 & Hc1 & Hm1 & Hq1 & _).
    destruct (purge_fields (timer_id t) pb) as (Ht2 & Hc2 & Hm2 & Hq2 & _).
    unfold agree_off. rewrite Ht1, Ht2, Hm1, Hm2, Hq1, Hq2, Hc1, Hc2.
    split_agree; try done.
    + simpl. by rewrite Ht.
    + simpl. by rewrite Ht, Hc.
    + simpl. intros u [_ Hu]%list_elem_of_filter. by apply Hx.
Qed.

Lemma due_by_mono lim t u :
  timer_due t ≤ timer_due u → due_by lim u = true → due_by lim t = true.
Proof.
  destruct lim as [z|]; simpl; [|done].
  rewrite !Z.leb_le. lia.
Qed.

Lemma others_head x t q : timer_id t ≠ x → others x (t :: q) = t :: others x q.
Proof. intros Ht. unfold others. by rewrite filter_cons_True. Qed.

Lemma others_elem_of x t q q' : others x q = t :: q' → t ∈ q ∧ timer_id t ≠ x.
Proof.
  intros Hq. assert (t ∈ others x q) as Ht by (rewrite Hq; by left).
  unfold others in Ht. by apply list_elem_of_filter in Ht as [? ?].
Qed.

(** A due timeout of another id at the head of [a] forces [b] to have a due
    head as well: either one of [x], or the same timeout. *)
Lemma agree_off_head x lim a b t qa :
  agree_off x a b → queue a = t :: qa → timer_id t ≠ x → due_by lim t = true →
  ∃ u qb, queue b = u :: qb ∧ due_by lim u = true ∧ (timer_id u = x ∨ u = t).
Proof.
  intros (_ & _ & Hq & _ & _ & _ & Hb) Hqa Hid Hdue.
  rewrite Hqa, others_head in Hq by done. symmetry in Hq.
  destruct (queue b) as [|u qb] eqn:Hqb; [done|].
  exists u, qb. split; [done|].
  destruct (decide (timer_id u = x)) as [Hu|Hu].
  - split; [|by left].
    apply others_elem_of in Hq as [Hin _].
    destruct Hb as [Hsorted _ _ _ _ _ _]. rewrite Hqb in Hsorted.
    eapply due_by_mono; [|exact Hdue]. by eapply sorted_head_le.
  - rewrite others_head in Hq by done. simplify_eq. split; [done|by right].
Qed.

Lemma agree_off_run x lim a b :
  agree_off x a b → agree_off x (run lim a) (run lim b).
Proof.
  remember (weight (queue a) + weight (queue b))%nat as n eqn:Hn.
  revert a b Hn. induction (lt_wf n) as [n _ IH]. intros a b -> Hab.
  assert (∀ a' b', agree_off x a' b' →
            (weight (queue a') + weight (queue b') < weight (queue a) + weight (queue b))%nat →
            agree_off x (run lim a') (run lim b')) as Hrec
    by (intros a' b' Hab' Hlt; by eapply IH).
  clear IH.
  assert (∀ t q, queue b = t :: q → due_by lim t = true → timer_id t = x →
            agree_off x (run lim a) (run lim b)) as Hstep_b.
  { intros t q Hqb Hdue Hid. rewrite (run_step lim b t q) by done.
    apply Hrec.
    - apply agree_off_sym.
      apply (agree_off_tick_own x b a t q); [by apply agree_off_sym|done..].
    - pose proof (weight_tick b t q Hqb). lia. }
  destruct (queue a) as [|t qa] eqn:Hqa.
  - rewrite (run_nil lim a) by done.
    destruct (queue b) as [|u qb] eqn:Hqb; [by rewrite run_nil|].
    destruct (due_by lim u) eqn:Hdue; [|by rewrite (run_late lim b u qb)].
    destruct (decide (timer_id u = x)) as [Hu|Hu].
    + rewrite <- (run_nil lim a) by done. by eapply Hstep_b.
    + destruct Hab as (_ & _ & Hq & _). rewrite Hqa, Hqb, others_head in Hq by done.
      done.
  - destruct (due_by lim t) eqn:Hdue.
    + destruct (decide (timer_id t = x)) as [Ht|Ht].
      * rewrite (run_step lim a t qa) by done. apply Hrec.
        -- by apply (agree_off_tick_own x a b t qa).
        -- pose proof (weight_tick a t qa Hqa). rewrite Hqa in *. lia.
      * destruct (agree_off_head x lim a b t qa Hab Hqa Ht Hdue)
          as (u & qb & Hqb & Hdu & [Hu| ->]).
        -- rewrite <- Hqa in *. by eapply Hstep_b.
        -- rewrite (run_step lim a t qa), (run_step lim b t qb) by done.
           apply Hrec.
           ++ by apply (agree_off_tick_other x a b t qa qb).
           ++ pose proof (weight_tick a t qa Hqa). pose proof (weight_tick b t qb Hqb).
              rewrite Hqa in *. lia.
    + rewrite (run_late lim a t qa) by done.
      destruct (queue b) as [|u qb] eqn:Hqb; [by rewrite run_nil|].
      destruct (due_by lim u) eqn:Hdu; [|by rewrite (run_late lim b u qb)].
      destruct (decide (timer_id u = x)) as [Hu|Hu].
      * rewrite <- (run_late lim a t qa) by done. rewrite <- Hqa in *. by eapply Hstep_b.
      * destruct (agree_off_head x lim b a u qb (agree_off_sym _ _ _ Hab) Hqb Hu Hdu)
          as (t' & qa' & Hqa' & Hdt & _).
        rewrite Hqa in Hqa'. simplify_eq. congruence.
Qed.

Lemma toasts_advance dt s : toasts (advance dt s) = toasts (run (Some (clock s + dt)) s).
Proof. done. Qed.

Lemma closed_advance dt s : closed (advance dt s) = closed (run (Some (clock s + dt)) s).
Proof. done. Qed.

Lemma clock_update i m o s : clock (update i m o s) = clock s.
Proof.
  unfold update. destruct (opt_duration o) as [d|]; [|done].
  by destruct (setTimer_frame i d (set_toasts
    ((λ t, if decide (toast_id t = i) then merge t m o else t) <$> toasts s) s))
    as (_ & _ & _ & ->).
Qed.

(** C9: every command is a total function of the state, and for an id that
    matches no entry of the list, [dismiss] and [update] leave the published
    list and the [onClose] log as they are, at once, after any lapse of time,
    and after every pending timeout has run. *)
Theorem unknown_id_is_noop config s x m o :
  reachable config s → (∀ t, t ∈ toasts s → toast_id t ≠ x) →
  (toasts (dismiss x s) = toasts s ∧ closed (dismiss x s) = closed s) ∧
  (toasts (update x m o s) = toasts s ∧ closed (update x m o s) = closed s) ∧
  (∀ dt, toasts (advance dt (dismiss x s)) = toasts (advance dt s) ∧
         closed (advance dt (dismiss x s)) = closed (advance dt s) ∧
         toasts (advance dt (update x m o s)) = toasts (advance dt s) ∧
         closed (advance dt (update x m o s)) = closed (advance dt s)) ∧
  (toasts (flush (dismiss x s)) = toasts (flush s) ∧
   closed (flush (dismiss x s)) = closed (flush s) ∧
   toasts (flush (update x m o s)) = toasts (flush s) ∧
   closed (flush (update x m o s)) = closed (flush s)).
Proof.
  intros [Hok _]%reachable_wf Hx.
  pose proof (agree_off_dismiss x s s (agree_off_refl x s Hok Hx)) as Hd.
  pose proof (agree_off_update x m o s s (agree_off_refl x s Hok Hx)) as Hu.
  assert (∀ lim s', agree_off x s' s →
            toasts (run lim s') = toasts (run lim s) ∧
            closed (run lim s') = closed (run lim s)) as Hrun.
  { intros lim s' Hs'. by destruct (agree_off_run x lim s' s Hs') as (? & ? & _). }
  split; [by destruct Hd as (? & ? & _)|].
  split; [by destruct Hu as (? & ? & _)|].
  split.
  - intros dt. rewrite !toasts_advance, !closed_advance, clock_update.
    destruct (dismiss_fields x s) as (_ & _ & _ & -> & _).
    destruct (Hrun (Some (clock s + dt)) _ Hd), (Hrun (Some (clock s + dt)) _ Hu). done.
  - unfold flush. destruct (Hrun None _ Hd), (Hrun None _ Hu). done.
Qed.

Lemma unknown_id_is_noop_witness :
  reachable DEFAULT_CONFIG sample_created ∧
  (∀ t, t ∈ toasts sample_created → toast_id t ≠ "zz"%string) ∧
  toasts (flush (dismiss "zz" sample_created)) = toasts (flush sample_created) ∧
  toasts (flush (update "zz" 8%nat (with_duration 50) sample_created)) =
    toasts (flush sample_created).
Proof.
  assert (reachable DEFAULT_CONFIG sample_created) as H
    by apply reach_step, reach_init.
  assert (∀ t, t ∈ toasts sample_created → toast_id t ≠ "zz"%string) as Hx.
  { intros t Ht. vm_compute in Ht. apply list_elem_of_singleton in Ht. by subst t. }
  split; [exact H|]. split; [exact Hx|].
  pose proof (unknown_id_is_noop DEFAULT_CONFIG sample_created "zz" 8%nat
                (with_duration 50) H Hx) as (_ & _ & _ & Hd & _ & Hu & _).
  split; [exact Hd|exact Hu].
Defined.

(** ** Expiry of an entry *)

Lemma find_id_fmap x (f : Toast → Toast) l :
  (∀ t, toast_id (f t) = toast_id t) →
  find (λ t, bool_decide (toast_id t = x)) (f <$> l) =
  f <$> find (λ t, bool_decide (toast_id t = x)) l.
Proof.
  intros Hf. induction l as [|t l IH]; [done|].
  rewrite fmap_cons. simpl. rewrite Hf. by case_bool_decide.
Qed.

Lemma find_id_filter_ne x j l :
  x ≠ j →
  find (λ t, bool_decide (toast_id t = x)) (filter (λ t, toast_id t ≠ j) l) =
  find (λ t, bool_decide (toast_id t = x)) l.
Proof.
  intros Hne. induction l as [|t l IH]; [done|].
  rewrite filter_cons. destruct (decide (toast_id t ≠ j)) as [Ht|Ht]; simpl.
  - by rewrite IH.
  - rewrite IH. rewrite bool_decide_eq_false_2; [done|].
    intros Hx. apply Ht. congruence.
Qed.

Lemma filter_serial_none u (l : list CloseEvent) :
  (∀ e, e ∈ l → e.1 ≠ u) → filter (λ e : CloseEvent, e.1 = u) l = [].
Proof. intros Hl. apply filter_none. by rewrite Forall_forall. Qed.

Lemma elem_of_purge_log i l e :
  e ∈ purge_log i l → ∃ v, v ∈ l ∧ toast_id v = i ∧ e.1 = toast_serial v.
Proof.
  unfold purge_log.
  destruct (find (λ t, bool_decide (toast_id t = i)) l) as [v|] eqn:Hv;
    [|by intros ?%elem_of_nil].
  apply find_id_Some in Hv as [Hv Hvid].
  destruct (toast_onClose v); [|by intros ?%elem_of_nil].
  intros He%list_elem_of_singleton. subst e. by exists v.
Qed.

(** Firing a timeout of another id leaves the entry as it is. *)
Lemma present_fire_other x u cb r t s :
  timer_id t ≠ x → present x u cb r s → present x u cb r (fire t s).
Proof.
  intros Hid ((e & Hfind & Hser & Hrem & Hcb) & Hids & Hlog). unfold fire.
  destruct (timer_kind t).
  - destruct (dismiss_fields (timer_id t) s) as (Ht & _ & _ & _ & _ & _ & Hc).
    unfold present. rewrite Ht, Hc. split; [|split; [|done]].
    + exists e. rewrite find_id_fmap by (intros v; by destruct (decide _)).
      rewrite Hfind. simpl.
      apply find_id_Some in Hfind as [_ He].
      rewrite decide_False by congruence. done.
    + intros v (v' & -> & Hv')%list_elem_of_fmap.
      destruct (decide _); simpl; by apply Hids.
  - destruct (purge_fields (timer_id t) s) as (Ht & Hc & _).
    unfold present. rewrite Ht, Hc. split; [|split].
    + exists e. by rewrite find_id_filter_ne.
    + intros v [_ Hv]%list_elem_of_filter. by apply Hids.
    + intros e' [He'|He']%elem_of_app; [by apply Hlog|].
      apply elem_of_purge_log in He' as (v & Hv & Hvid & Hser').
      intros Hu. apply Hid. rewrite <- Hvid. apply Hids; [done|congruence].
Qed.

Lemma sole_timer_tick_other x tm s t q :
  timers_ok s → sole_timer x tm s → queue s = t :: q → timer_id t ≠ x →
  sole_timer x tm (tick s).
Proof.
  intros Hok (Hid & Hin & Honly) Hq Ht.
  assert (tm ∈ q) as Hinq.
  { rewrite Hq in Hin. apply elem_of_cons in Hin as [->|?]; [congruence|done]. }
  assert (∀ v, v ∈ q → timer_id v = x → v = tm) as Honlyq.
  { intros v Hv. apply Honly. rewrite Hq. by right. }
  unfold tick. rewrite Hq. unfold fire, sole_timer. split; [done|].
  set (p := set_clock (Z.max (clock s) (timer_due t)) (set_queue q s)).
  destruct (timer_kind t).
  - destruct (dismiss_fields (timer_id t) p) as (_ & _ & -> & _).
    rewrite queue_clearTimer. simpl.
    destruct (timersRef s !! timer_id t) as [hj|] eqn:Hj.
    + split.
      * apply elem_of_enqueue. right. apply list_elem_of_filter. split; [|done].
        intros Hh. apply Ht. rewrite <- Hid. symmetry.
        destruct Hok as [_ _ _ Howner _ _ _]. by eapply Howner.
      * intros v [->|[_ Hv]%list_elem_of_filter]%elem_of_enqueue Hvx; [done|].
        by apply Honlyq.
    + split; [apply elem_of_enqueue; by right|].
      intros v [->|Hv]%elem_of_enqueue Hvx; [done|]. by apply Honlyq.
  - rewrite queue_purge. done.
Qed.


Lemma exiting_tick x u T cb s t q :
  exiting x u T cb s → queue s = t :: q →
  exiting x u T cb (tick s) ∨ gone u T cb (tick s).
Proof.
  intros (Hp & Hsole & Hok) Hq.
  pose proof (timers_ok_tick s Hok) as Hok'.
  destruct (decide (timer_id t = x)) as [Hid|Hid].
  - right. destruct Hsole as (_ & Hin & Honly).
    assert (t = mkTimer None (T + 300) Purge x) as Ht
      by (apply Honly; [rewrite Hq; by left|done]).
    unfold tick. rewrite Hq. unfold fire. rewrite Ht. simpl timer_kind.
    simpl timer_id. simpl timer_due.
    set (p := set_clock (Z.max (clock s) (T + 300)) (set_queue q s)).
    destruct Hp as ((e & Hfind & Hser & Hrem & Hcb) & Hids & Hlog).
    destruct (purge_fields x p) as (Htoasts & Hclosed & _ & _ & Hclock & _).
    unfold gone. rewrite Htoasts, Hclosed, Hclock. split; [|split].
    + intros v [Hv Hin']%list_elem_of_filter Hu. apply Hv. by apply Hids.
    + rewrite filter_app, filter_serial_none, app_nil_l by done.
      unfold purge_log. simpl toasts. rewrite Hfind, Hcb, Hser.
      destruct cb; [|done]. by rewrite filter_cons_True, filter_nil.
    + simpl. lia.
  - left. split; [|split; [|done]].
    + unfold tick. rewrite Hq. by apply present_fire_other.
    + by eapply sole_timer_tick_other.
Qed.

Lemma gone_tick u T cb s : gone u T cb s → gone u T cb (tick s).
Proof.
  intros (Hl & Hlog & Hclock). unfold tick.
  destruct (queue s) as [|t q]; [done|]. unfold fire.
  set (p := set_clock (Z.max (clock s) (timer_due t)) (set_queue q s)).
  destruct (timer_kind t).
  - destruct (dismiss_fields (timer_id t) p) as (Ht & _ & _ & Hc & _ & _ & Hcl).
    unfold gone. rewrite Ht, Hc, Hcl. split; [|split; [done|simpl; lia]].
    intros v (v' & -> & Hv')%list_elem_of_fmap.
    destruct (decide _); simpl; by apply Hl.
  - destruct (purge_fields (timer_id t) p) as (Ht & Hcl & _ & _ & Hc & _).
    unfold gone. rewrite Ht, Hc, Hcl. split; [|split; [|simpl; lia]].
    + intros v [_ Hv]%list_elem_of_filter. by apply Hl.
    + rewrite filter_app. simpl closed. rewrite Hlog.
      rewrite filter_serial_none; [by rewrite app_nil_r|].
      intros e (v & Hv & _ & ->)%elem_of_purge_log. by apply Hl.
Qed.





Lemma exiting_not_late x u T cb z s :
  T + 300 ≤ z → exiting x u T cb s → ¬ Forall (λ t, z < timer_due t) (queue s).
Proof.
  intros Hz (_ & (_ & Hin & _) & _) Hlate.
  rewrite Forall_forall in Hlate. specialize (Hlate _ Hin). simpl in Hlate. lia.
Qed.



(** * Further properties of the toast package *)

(** ** Creating an entry *)


Lemma createToast_head config m o rnd s :
  1 ≤ maxToasts config →
  ∃ l, toasts (createToast config m o rnd s).2 = new_toast config m o rnd s :: l.
Proof.
  intros Hmax. rewrite toasts_createToast, insert_toast_toasts by lia.
  destruct (Z.to_nat (maxToasts config)) as [|n] eqn:Hn; [lia|]. simpl. eauto.
Qed.



Lemma api_call_createToast config c m o :
  api_call config c m o =
  createToast config m (match forced_type c with Some ty => with_type ty o | None => o end).
Proof. by destruct c. Qed.

(** X2: a creator of the API that names a type ([success], [error],
    [warning], [info], [loading]) creates an entry of that type whatever
    [type] the options carry, and gives the same result as if the options
    carried no [type]; [custom] keeps the type of the options, [info] when
    there is none. *)
Theorem creator_forces_type config c m o rnd s :
  1 ≤ maxToasts config →
  (∃ t, head (toasts (api_call config c m o rnd s).2) = Some t ∧
        toast_message t = m ∧
        toast_type t = match forced_type c with
                       | Some ty => ty
                       | None => default info (opt_type o)
                       end) ∧
  (∀ ty ty', forced_type c = Some ty →
     api_call config c m (with_type ty' o) rnd s = api_call config c m o rnd s).
Proof.
  intros Hmax. split.
  - rewrite api_call_createToast.
    destruct (createToast_head config m
                (match forced_type c with Some ty => with_type ty o | None => o end)
                rnd s Hmax) as [l ->].
    eexists. split; [done|]. split; [done|]. by destruct c.
  - intros ty ty' Hc. rewrite !api_call_createToast, Hc. done.
Qed.

Lemma creator_forces_type_witness :
  1 ≤ maxToasts DEFAULT_CONFIG ∧
  ∀ ty ty', forced_type CSuccess = Some ty →
    api_call DEFAULT_CONFIG CSuccess 7%nat (with_type ty' sample_options) "r" init =
    api_call DEFAULT_CONFIG CSuccess 7%nat sample_options "r" init.
Proof.
  assert (1 ≤ maxToasts DEFAULT_CONFIG) as H by (vm_compute; discriminate).
  split; [exact H|].
  exact (proj2 (creator_forces_type DEFAULT_CONFIG CSuccess 7%nat sample_options "r" init H)).
Defined.

Lemma spread_no_options o : spread no_options o = o.
Proof. destruct o as [[] [] [] [] [] [] [] [] [] []]; reflexivity. Qed.

(** X3: through [useToastWithDefaults] an option is taken from the call
    when the call has it, else from the defaults of the hook, else from the
    provider; the type named by the creator still wins over both. Without
    defaults the hook's creators are the creators of the plain API. *)
Theorem defaults_fill_the_gaps config d c m o rnd s :
  1 ≤ maxToasts config →
  (∃ t, head (toasts (defaults_call config d c m o rnd s).2) = Some t ∧
        toast_message t = m ∧
        toast_duration t =
          default (default (defaultDuration config) (opt_duration d)) (opt_duration o) ∧
        toast_position t =
          default (default (defaultPosition config) (opt_position d)) (opt_position o) ∧
        toast_variant t =
          default (default (defaultVariant config) (opt_variant d)) (opt_variant o) ∧
        toast_dismissible t =
          default (default true (opt_dismissible d)) (opt_dismissible o) ∧
        toast_onClose t = or_else (opt_onClose o) (opt_onClose d) ∧
        toast_type t = match forced_type c with
                       | Some ty => ty
                       | None => default (default info (opt_type d)) (opt_type o)
                       end) ∧
  defaults_call config no_options c m o rnd s = api_call config c m o rnd s.
Proof.
  intros Hmax. split; [|unfold defaults_call; by rewrite spread_no_options].
  unfold defaults_call. rewrite api_call_createToast.
  destruct (createToast_head config m
              (match forced_type c with
               | Some ty => with_type ty (spread d o)
               | None => spread d o
               end) rnd s Hmax) as [l ->].
  eexists. split; [done|].
  destruct c; simpl; unfold option_duration; simpl;
    destruct o as [[] [] [] [] [] ? ? ? [] ?]; simpl; done.
Qed.

Lemma defaults_fill_the_gaps_witness :
  1 ≤ maxToasts DEFAULT_CONFIG ∧
  defaults_call DEFAULT_CONFIG no_options CInfo 7%nat sample_options "r" init =
  api_call DEFAULT_CONFIG CInfo 7%nat sample_options "r" init.
Proof.
  assert (1 ≤ maxToasts DEFAULT_CONFIG) as H by (vm_compute; discriminate).
  split; [exact H|].
  exact (proj2 (defaults_fill_the_gaps DEFAULT_CONFIG no_options CInfo 7%nat
                  sample_options "r" init H)).
Defined.

(** ** Entries that are left alone, dismissed, or updated *)

Lemma createToast_present config m o rnd s :
  wf s → 1 ≤ maxToasts config →
  present (option_id o (clock s) rnd) (nextSerial s) (opt_onClose o) false
    (createToast config m o rnd s).2.
Proof.
  intros [_ [Hser _ Hclt _ _]] Hmax.
  destruct (createToast_head config m o rnd s Hmax) as [l Hl].
  destruct (createToast_frame config m o rnd s) as [Hc _].
  unfold present. rewrite Hc, Hl. split; [|split].
  - exists (new_toast config m o rnd s). simpl.
    by rewrite bool_decide_eq_true_2.
  - intros v Hv Hu. rewrite <- Hl, toasts_createToast in Hv.
    eapply elem_of_submseteq in Hv; [|apply insert_toast_submseteq].
    apply elem_of_cons in Hv as [->|Hv]; [done|].
    rewrite Forall_forall in Hser. specialize (Hser v Hv). lia.
  - intros e He. rewrite Forall_forall in Hclt. specialize (Hclt e He). lia.
Qed.

Lemma fire_queue_ids x t s :
  timer_id t ≠ x → (∀ v, v ∈ queue s → timer_id v ≠ x) →
  ∀ v, v ∈ queue (fire t s) → timer_id v ≠ x.
Proof.
  intros Ht Hs v. unfold fire. destruct (timer_kind t).
  - destruct (dismiss_fields (timer_id t) s) as (_ & _ & -> & _).
    intros [->|Hv]%elem_of_enqueue; [done|]. apply Hs.
    eapply elem_of_sublist; [exact Hv|apply queue_clearTimer_sublist].
  - rewrite queue_purge. apply Hs.
Qed.

Lemma idle_tick x u cb s : idle x u cb s → idle x u cb (tick s).
Proof.
  intros [Hp Hq]. unfold tick. destruct (queue s) as [|t q] eqn:Hqs.
  { split; [done|]. by rewrite Hqs. }
  assert (timer_id t ≠ x) as Ht by (apply Hq; by left).
  split.
  - by apply present_fire_other.
  - apply fire_queue_ids; [done|]. simpl. intros v Hv. apply Hq. by right.
Qed.

Lemma idle_run x u cb lim s : idle x u cb s → idle x u cb (run lim s).
Proof.
  intros Hs. apply (run_invariant (idle x u cb) lim); [|done].
  intros s' t q Hs' _ _. by apply idle_tick.
Qed.

Lemma present_elem x u cb r s :
  present x u cb r s →
  (∃ e, e ∈ toasts s ∧ toast_id e = x ∧ toast_serial e = u ∧
        toast_removing e = r ∧ toast_onClose e = cb) ∧
  filter (λ e : CloseEvent, e.1 = u) (closed s) = [].
Proof.
  intros ((e & Hfind & Hser & Hrem & Hcb) & _ & Hlog).
  apply find_id_Some in Hfind as [Hin Hid].
  split; [by exists e|by apply filter_serial_none].
Qed.

(** X4: an entry created with a duration of 0 or less (room for one entry
    per slot, no timeout pending for its id) gets no timer, and however much
    time passes, and even after every pending timeout has run, it is still in
    the list, not removing, with no [onClose] call. *)
Theorem zero_duration_never_expires config s m o rnd :
  reachable config s →
  1 ≤ maxToasts config →
  option_duration config o ≤ 0 →
  (∀ t, t ∈ queue s → timer_id t ≠ option_id o (clock s) rnd) →
  let x := option_id o (clock s) rnd in
  let u := nextSerial s in
  let s1 := (createToast config m o rnd s).2 in
  queue s1 `sublist_of` queue s ∧
  (∀ dt, (∃ e, e ∈ toasts (advance dt s1) ∧ toast_id e = x ∧ toast_serial e = u ∧
               toast_removing e = false ∧ toast_onClose e = opt_onClose o) ∧
         filter (λ e : CloseEvent, e.1 = u) (closed (advance dt s1)) = []) ∧
  (∃ e, e ∈ toasts (flush s1) ∧ toast_id e = x ∧ toast_serial e = u ∧
        toast_removing e = false ∧ toast_onClose e = opt_onClose o) ∧
  filter (λ e : CloseEvent, e.1 = u) (closed (flush s1)) = [].
Proof.
  intros Hreach Hmax Hd Hfresh x u s1.
  pose proof (reachable_wf config s Hreach) as Hwf.
  assert (s1 = insert_toast config (new_toast config m o rnd s) (bump_serial s)) as Hs1.
  { unfold s1. rewrite createToast_state. cbv zeta.
    change (toast_duration (new_toast config m o rnd s)) with (option_duration config o).
    destruct (Z.gtb_spec (option_duration config o) 0); [lia|done]. }
  assert (queue s1 `sublist_of` queue s) as Hsub
    by (rewrite Hs1; apply (queue_insert_toast_sublist config _ (bump_serial s))).
  assert (idle x u (opt_onClose o) s1) as Hidle.
  { split; [by apply createToast_present|].
    intros t Ht. apply Hfresh. by eapply elem_of_sublist. }
  split; [done|]. split.
  - intros dt. rewrite toasts_advance, closed_advance.
    apply (present_elem x u (opt_onClose o) false), (idle_run x u _ _ s1 Hidle).
  - apply (present_elem x u (opt_onClose o) false), (idle_run x u _ None s1 Hidle).
Qed.

Lemma zero_duration_never_expires_witness :
  reachable DEFAULT_CONFIG init ∧
  1 ≤ maxToasts DEFAULT_CONFIG ∧
  option_duration DEFAULT_CONFIG (with_duration 0) ≤ 0 ∧
  (∀ t, t ∈ queue init → timer_id t ≠ option_id (with_duration 0) (clock init) "r") ∧
  filter (λ e : CloseEvent, e.1 = nextSerial init)
    (closed (flush (createToast DEFAULT_CONFIG 7%nat (with_duration 0) "r" init).2)) = [].
Proof.
  assert (1 ≤ maxToasts DEFAULT_CONFIG) as Hmax by (vm_compute; discriminate).
  assert (option_duration DEFAULT_CONFIG (with_duration 0) ≤ 0) as Hd
    by (vm_compute; discriminate).
  assert (∀ t, t ∈ queue init → timer_id t ≠ option_id (with_duration 0) (clock init) "r")
    as Hfresh by (intros t Ht; by apply elem_of_nil in Ht).
  split; [apply reach_init|]. split; [exact Hmax|]. split; [exact Hd|].
  split; [exact Hfresh|].
  exact (proj2 (proj2 (proj2 (zero_duration_never_expires DEFAULT_CONFIG init 7%nat
    (with_duration 0) "r" (reach_init DEFAULT_CONFIG) Hmax Hd Hfresh)))).
Defined.

Lemma no_own_timers_after_clear x s :
  timers_ok s → pending Purge x s = [] →
  ∀ v, v ∈ queue (clearTimer x s) → timer_id v ≠ x.
Proof.
  intros Hok Hpurge v Hv Hvx.
  pose proof (timers_ok_clearTimer x s Hok) as [_ _ Htracked _ _ _ _].
  rewrite Forall_forall in Htracked. specialize (Htracked v Hv).
  destruct (timer_kind v) eqn:Hkind.
  - destruct Htracked as (h & _ & Href).
    by rewrite Hvx, timersRef_clearTimer, lookup_delete_eq in Href.
  - assert (v ∈ pending Purge x s) as Hin; [|rewrite Hpurge in Hin; by apply elem_of_nil in Hin].
    apply list_elem_of_filter. split; [done|].
    eapply elem_of_sublist; [exact Hv|apply queue_clearTimer_sublist].
Qed.


Lemma exiting_tick_other x u T cb s t q :
  exiting x u T cb s → queue s = t :: q → timer_id t ≠ x →
  exiting x u T cb (tick s).
Proof.
  intros (Hp & Hsole & Hok) Hq Ht. split; [|split].
  - unfold tick. rewrite Hq. by apply present_fire_other.
  - by eapply sole_timer_tick_other.
  - by apply timers_ok_tick.
Qed.


(** Before the purge timeout is due the entry stays in the list, removing. *)
Lemma exiting_run_before x u T cb z s :
  z < T + 300 → exiting x u T cb s → exiting x u T cb (run (Some z) s).
Proof.
  intros Hz Hs. apply (run_invariant (exiting x u T cb) (Some z)); [|done].
  intros s' t q Hw Hq Hdue. eapply exiting_tick_other; [done..|].
  intros Hid. destruct Hw as (_ & (_ & _ & Honly) & _).
  rewrite (Honly t) in Hdue; [|rewrite Hq; by left|done].
  simpl in Hdue. apply Z.leb_le in Hdue. lia.
Qed.

Lemma exit_run x u T cb lim s :
  exiting x u T cb s ∨ gone u T cb s →
  exiting x u T cb (run lim s) ∨ gone u T cb (run lim s).
Proof.
  intros Hs.
  apply (run_invariant (λ s, exiting x u T cb s ∨ gone u T cb s) lim); [|done].
  intros s' t q [He|Hg] Hq _; [by eapply exiting_tick|right; by apply gone_tick].
Qed.

(** Once removing, the entry is purged 300 ms later. *)
Lemma exiting_expires x u cb s :
  wf s → exiting x u (clock s) cb s → gone u (clock s) cb (advance 300 s).
Proof.
  intros Hwf He. set (T := clock s) in *.
  set (r := run (Some (T + 300)) s).
  assert (advance 300 s = set_clock (Z.max (clock r) (T + 300)) r) as -> by done.
  pose proof (exit_run x u T cb (Some (T + 300)) s (or_introl He)) as Hl.
  pose proof (run_queue_late (T + 300) s Hwf) as Hlate.
  fold r in Hl, Hlate.
  destruct Hl as [He'|(Hl & Hlog & Hclk)].
  - exfalso. by eapply (exiting_not_late x u T cb (T + 300) r).
  - split; [done|]. split; [done|]. simpl. lia.
Qed.


Lemma dismiss_exiting x e s :
  wf s → find (λ t, bool_decide (toast_id t = x)) (toasts s) = Some e →
  pending Purge x s = [] →
  exiting x (toast_serial e) (clock s) (toast_onClose e) (dismiss x s).
Proof.
  intros [Hok [_ Hnd _ Hgone _]] Hfind Hpurge.
  pose proof (find_id_Some x _ _ Hfind) as [Hin Hid].
  destruct (dismiss_fields x s) as (Ht & _ & Hq & _ & _ & _ & Hc).
  split; [|split].
  - unfold present. rewrite Ht, Hc. split; [|split].
    + exists (mark_removing e).
      rewrite find_id_fmap by (intros v; by destruct (decide _)).
      rewrite Hfind. simpl. by rewrite decide_True.
    + intros v (v' & -> & Hv')%list_elem_of_fmap Hser.
      assert (v' = e) as ->.
      { eapply serial_inj; [done..|]. by destruct (decide _). }
      by destruct (decide _).
    + intros ev Hev. by apply Hgone.
  - unfold sole_timer. rewrite Hq. split; [done|].
    split; [apply elem_of_enqueue; by left|].
    intros v [->|Hv]%elem_of_enqueue Hvx; [done|].
    by destruct (no_own_timers_after_clear x s Hok Hpurge v Hv).
  - by apply timers_ok_dismiss.
Qed.

(** X5: [dismiss(id)] on a listed id with no earlier dismissal in flight:
    at once the first entry of that id is removing and still listed, the list
    has its length, the expiry timer of the id is cancelled and no [onClose]
    has run; this holds whether or not the entry is [dismissible]. For less
    than 300 ms the entry stays listed and removing; at 300 ms it is out of
    the list and its [onClose], if any, has run exactly once. *)
Theorem dismiss_then_purge config s x e :
  reachable config s →
  find (λ t, bool_decide (toast_id t = x)) (toasts s) = Some e →
  pending Purge x s = [] →
  let u := toast_serial e in
  let s1 := dismiss x s in
  (length (toasts s1) = length (toasts s) ∧
   timersRef s1 !! x = None ∧ pending Expiry x s1 = [] ∧ closed s1 = closed s) ∧
  (∀ dt, dt < 300 →
     (∃ e', e' ∈ toasts (advance dt s1) ∧ toast_id e' = x ∧ toast_serial e' = u ∧
            toast_removing e' = true ∧ toast_onClose e' = toast_onClose e) ∧
     filter (λ ev : CloseEvent, ev.1 = u) (closed (advance dt s1)) = []) ∧
  (∀ t, t ∈ toasts (advance 300 s1) → toast_serial t ≠ u) ∧
  filter (λ ev : CloseEvent, ev.1 = u) (closed (advance 300 s1)) =
    match toast_onClose e with Some c => [(u, c)] | None => [] end.
Proof.
  intros Hreach Hfind Hpurge u s1.
  pose proof (reachable_wf config s Hreach) as Hwf.
  pose proof (dismiss_exiting x e s Hwf Hfind Hpurge) as He.
  assert (wf s1) as Hwf1
    by (split; [apply timers_ok_dismiss|apply entries_ok_dismiss]; apply Hwf).
  destruct (dismiss_fields x s) as (Ht & Hm & _ & Hc & _ & _ & Hcl).
  split; [|split].
  - split; [unfold s1; by rewrite Ht, length_fmap|].
    assert (timersRef s1 !! x = None) as Hnone
      by (unfold s1; rewrite Hm; apply lookup_delete_eq).
    split; [done|]. split; [|done].
    apply pending_expiry_none; [apply Hwf1|done].
  - intros dt Hdt. rewrite toasts_advance, closed_advance.
    apply (present_elem x u (toast_onClose e) true).
    assert (clock s1 + dt < clock s + 300) as Hlt by (unfold s1; rewrite Hc; lia).
    by destruct (exiting_run_before x u (clock s) (toast_onClose e) _ s1 Hlt He) as (? & _).
  - assert (exiting x u (clock s1) (toast_onClose e) s1) as He1
      by (unfold s1 at 1; by rewrite Hc).
    destruct (exiting_expires x u (toast_onClose e) s1 Hwf1 He1) as (Hl & Hlog & _).
    done.
Qed.

Lemma dismiss_then_purge_witness :
  reachable DEFAULT_CONFIG sample_created ∧
  find (λ t, bool_decide (toast_id t = "a"%string)) (toasts sample_created) =
    Some (new_toast DEFAULT_CONFIG 7%nat sample_options "r" init) ∧
  pending Purge "a" sample_created = [] ∧
  filter (λ ev : CloseEvent, ev.1 = 0%nat)
    (closed (advance 300 (dismiss "a" sample_created))) = [(0%nat, 9%nat)].
Proof.
  assert (reachable DEFAULT_CONFIG sample_created) as H
    by apply reach_step, reach_init.
  assert (find (λ t, bool_decide (toast_id t = "a"%string)) (toasts sample_created) =
    Some (new_toast DEFAULT_CONFIG 7%nat sample_options "r" init)) as Hfind
    by (vm_compute; reflexivity).
  assert (pending Purge "a" sample_created = []) as Hpurge by (vm_compute; reflexivity).
  split; [exact H|]. split; [exact Hfind|]. split; [exact Hpurge|].
  exact (proj2 (proj2 (proj2 (dismiss_then_purge DEFAULT_CONFIG sample_created "a" _
    H Hfind Hpurge)))).
Defined.




(** An [update] whose options carry no [duration] touches no timer and
    runs no callback: queue, [timersRef], clock and [onClose] log are as
    before, the list keeps its length, every entry of another id is unchanged
    at its place, and an entry of that id gets the message while it keeps its
    duration, its removing flag and its creation time. *)
Theorem update_without_duration s i m o :
  opt_duration o = None →
  queue (update i m o s) = queue s ∧
  timersRef (update i m o s) = timersRef s ∧
  clock (update i m o s) = clock s ∧
  closed (update i m o s) = closed s ∧
  length (toasts (update i m o s)) = length (toasts s) ∧
  (∀ k t, toasts s !! k = Some t → toast_id t ≠ i →
          toasts (update i m o s) !! k = Some t) ∧
  (∀ k t, toasts s !! k = Some t → toast_id t = i →
          ∃ t', toasts (update i m o s) !! k = Some t' ∧
                toast_message t' = m ∧ toast_serial t' = toast_serial t ∧
                toast_removing t' = toast_removing t ∧
                toast_createdAt t' = toast_createdAt t ∧
                toast_duration t' = toast_duration t).
Proof.
  intros Hod. unfold update. rewrite Hod. simpl.
  repeat split; try done.
  - by rewrite length_fmap.
  - intros k t Hk Hne. rewrite list_lookup_fmap, Hk. simpl. by rewrite decide_False.
  - intros k t Hk Heq. rewrite list_lookup_fmap, Hk. simpl. rewrite decide_True by done.
    eexists. split; [done|]. simpl. by rewrite Hod.
Qed.

Lemma update_without_duration_witness :
  opt_duration no_options = None ∧
  queue (update "a" 8%nat no_options sample_created) = queue sample_created.
Proof.
  split; [reflexivity|].
  exact (proj1 (update_without_duration sample_created "a" 8%nat no_options eq_refl)).
Defined.





(** ** The purge callback and [clearTimer] *)

Lemma elem_of_purge_log_first i l ev :
  ev ∈ purge_log i l →
  ∃ v, find (λ t, bool_decide (toast_id t = i)) l = Some v ∧
       ev.1 = toast_serial v ∧ toast_onClose v = Some ev.2.
Proof.
  unfold purge_log.
  destruct (find (λ t, bool_decide (toast_id t = i)) l) as [v|];
    [|by intros ?%elem_of_nil].
  destruct (toast_onClose v) eqn:Hcb; [|by intros ?%elem_of_nil].
  intros He%list_elem_of_singleton. subst ev. by exists v.
Qed.

(** X8: when the purge callback runs for an id that several listed entries
    share, all of them leave the list, entries of other ids stay, and only the
    first of them in list order has its [onClose] called; no call is logged
    for the others. *)
Theorem purge_closes_first_only config s x :
  reachable config s →
  (∀ t, t ∈ toasts (purge x s) ↔ t ∈ toasts s ∧ toast_id t ≠ x) ∧
  closed (purge x s) = closed s ++ purge_log x (toasts s) ∧
  (∀ t, t ∈ toasts s → toast_id t = x →
        find (λ u, bool_decide (toast_id u = x)) (toasts s) ≠ Some t →
        filter (λ ev : CloseEvent, ev.1 = toast_serial t) (closed (purge x s)) = []).
Proof.
  intros [_ [_ Hnd _ Hgone _]]%reachable_wf.
  destruct (purge_fields x s) as (Ht & Hc & _).
  split; [|split; [done|]].
  - intros t. rewrite Ht, list_elem_of_filter. tauto.
  - intros t Ht' Hid Hfirst. rewrite Hc, filter_app.
    rewrite (filter_serial_none _ (closed s)) by (intros ev Hev; by apply Hgone).
    apply filter_serial_none.
    intros ev (v & Hfind & Hser & _)%elem_of_purge_log_first Heq.
    apply Hfirst. rewrite Hfind. f_equal.
    pose proof (find_id_Some x _ _ Hfind) as [Hv _].
    eapply serial_inj; [done..|]. congruence.
Qed.

Lemma purge_closes_first_only_witness :
  reachable DEFAULT_CONFIG
    (apply DEFAULT_CONFIG (ECreate 7%nat sample_options "r") sample_created) ∧
  closed (purge "a" (apply DEFAULT_CONFIG (ECreate 7%nat sample_options "r") sample_created))
  = closed (apply DEFAULT_CONFIG (ECreate 7%nat sample_options "r") sample_created) ++
    purge_log "a"
      (toasts (apply DEFAULT_CONFIG (ECreate 7%nat sample_options "r") sample_created)).
Proof.
  assert (reachable DEFAULT_CONFIG
    (apply DEFAULT_CONFIG (ECreate 7%nat sample_options "r") sample_created)) as H
    by apply reach_step, reach_step, reach_init.
  split; [exact H|].
  exact (proj1 (proj2 (purge_closes_first_only DEFAULT_CONFIG _ "a" H))).
Defined.

Example purge_of_shared_id :
  let s := apply DEFAULT_CONFIG (ECreate 8%nat
             (mkOptions None None None None None None None None (Some 4%nat)
                (Some "a"%string)) "r") sample_created in
  ids s = ["a"; "a"]%string ∧
  toasts (purge "a" s) = [] ∧ closed (purge "a" s) = [(1%nat, 4%nat)].
Proof. vm_compute. repeat split; reflexivity. Qed.

Lemma filter_ext_in {A} (P Q : A → Prop) `{!∀ x, Decision (P x)} `{!∀ x, Decision (Q x)}
    (l : list A) :
  (∀ x, x ∈ l → (P x ↔ Q x)) → filter P l = filter Q l.
Proof.
  induction l as [|a l IH]; intros Hl; [done|].
  rewrite !filter_cons, IH by (intros x Hx; apply Hl; by right).
  destruct (decide (P a)) as [HP|HP].
  - rewrite decide_True; [done|]. apply Hl; [by left|done].
  - rewrite decide_False; [done|]. intros HQ. apply HP. apply Hl; [by left|done].
Qed.

(** X9: in every reachable state the timer map and the pending timeouts
    fit together, so that [clearTimer(id)] cancels exactly the pending expiry
    timeouts of [id]: afterwards the queue is the old queue without them,
    purge timeouts and the timeouts of other ids are all still pending, and
    the map has lost just the entry of [id]. *)
Theorem clearTimer_cancels_exactly config s x :
  reachable config s →
  queue (clearTimer x s) =
    filter (λ t, ¬ (timer_kind t = Expiry ∧ timer_id t = x)) (queue s) ∧
  timersRef (clearTimer x s) = delete x (timersRef s) ∧
  pending Expiry x (clearTimer x s) = [] ∧
  toasts (clearTimer x s) = toasts s ∧ closed (clearTimer x s) = closed s.
Proof.
  intros [Hok _]%reachable_wf.
  assert (queue (clearTimer x s) =
    filter (λ t, ¬ (timer_kind t = Expiry ∧ timer_id t = x)) (queue s)) as Hq.
  { destruct Hok as [_ _ Htracked Howner _ _ _].
    rewrite Forall_forall in Htracked.
    rewrite queue_clearTimer. destruct (timersRef s !! x) as [h|] eqn:Hx.
    - unfold clearTimeout. apply filter_ext_in. intros t Ht.
      specialize (Htracked t Ht). split.
      + intros Hh [Hk Hid]. rewrite Hk, Hid, Hx in Htracked.
        destruct Htracked as (h' & Hh' & [= ->]). done.
      + intros Hne Hh. apply Hne.
        destruct (timer_kind t); [|congruence].
        split; [done|]. by eapply Howner.
    - symmetry. apply filter_all. rewrite Forall_forall. intros t Ht [Hk Hid].
      specialize (Htracked t Ht). rewrite Hk, Hid, Hx in Htracked.
      by destruct Htracked as (? & _ & ?). }
  split; [done|]. split; [apply timersRef_clearTimer|].
  destruct (clearTimer_frame x s) as (-> & -> & _).
  split; [|done].
  unfold pending. rewrite Hq, list_filter_filter.
  apply filter_none. rewrite Forall_forall. intros t _ [? ?]. done.
Qed.

Lemma clearTimer_cancels_exactly_witness :
  reachable DEFAULT_CONFIG sample_created ∧
  pending Expiry "a" (clearTimer "a" sample_created) = [].
Proof.
  assert (reachable DEFAULT_CONFIG sample_created) as H
    by apply reach_step, reach_init.
  split; [exact H|].
  exact (proj1 (proj2 (proj2 (clearTimer_cancels_exactly DEFAULT_CONFIG _ "a" H)))).
Defined.

(** ** What no command or timeout undoes *)

Lemma nextSerial_createToast config m o rnd s :
  nextSerial (createToast config m o rnd s).2 = S (nextSerial s).
Proof.
  rewrite createToast_state. cbv zeta.
  set (t := new_toast config m o rnd s).
  destruct (insert_toast_frame config t (bump_serial s)) as (_ & Hn & _).
  destruct (_ >? _); [|done].
  by destruct (setTimer_frame (toast_id t) (toast_duration t)
                 (insert_toast config t (bump_serial s))) as (_ & _ & -> & _).
Qed.

Lemma nextSerial_update i m o s : nextSerial (update i m o s) = nextSerial s.
Proof.
  unfold update. destruct (opt_duration o) as [d|]; [|done].
  by destruct (setTimer_frame i d (set_toasts
    ((λ t, if decide (toast_id t = i) then merge t m o else t) <$> toasts s) s))
    as (_ & _ & -> & _).
Qed.

Lemma toasts_update i m o s :
  toasts (update i m o s) =
  (λ t, if decide (toast_id t = i) then merge t m o else t) <$> toasts s.
Proof.
  unfold update. destruct (opt_duration o) as [d|]; [|done].
  by destruct (setTimer_frame i d (set_toasts
    ((λ t, if decide (toast_id t = i) then merge t m o else t) <$> toasts s) s))
    as (-> & _).
Qed.

Lemma closed_update i m o s : closed (update i m o s) = closed s.
Proof.
  unfold update. destruct (opt_duration o) as [d|]; [|done].
  by destruct (setTimer_frame i d (set_toasts
    ((λ t, if decide (toast_id t = i) then merge t m o else t) <$> toasts s) s))
    as (_ & -> & _).
Qed.

Lemma nextSerial_tick s : nextSerial (tick s) = nextSerial s.
Proof.
  unfold tick. destruct (queue s) as [|t q]; [done|]. unfold fire.
  destruct (timer_kind t).
  - by destruct (dismiss_fields (timer_id t)
      (set_clock (Z.max (clock s) (timer_due t)) (set_queue q s)))
      as (_ & _ & _ & _ & _ & -> & _).
  - by destruct (purge_fields (timer_id t)
      (set_clock (Z.max (clock s) (timer_due t)) (set_queue q s)))
      as (_ & _ & _ & _ & _ & _ & ->).
Qed.

Lemma settled_tick v s : settled v s → settled v (tick s).
Proof.
  intros [Hlt Hs]. split; [by rewrite nextSerial_tick|].
  unfold tick. destruct (queue s) as [|t q]; [done|]. unfold fire.
  set (p := set_clock _ (set_queue q s)).
  destruct (timer_kind t).
  - destruct (dismiss_fields (timer_id t) p) as (-> & _).
    intros u (u' & -> & Hu')%list_elem_of_fmap.
    destruct (decide _); [done|]. by apply Hs.
  - destruct (purge_fields (timer_id t) p) as (-> & _).
    intros u [_ Hu]%list_elem_of_filter. by apply Hs.
Qed.

Lemma settled_apply config e v s : settled v s → settled v (apply config e s).
Proof.
  intros [Hlt Hs]. destruct e as [m o rnd|i m o|i| | |dt]; cbn [apply].
  - split; [rewrite nextSerial_createToast; lia|].
    rewrite toasts_createToast. intros u Hu Hser.
    eapply elem_of_submseteq in Hu; [|apply insert_toast_submseteq].
    apply elem_of_cons in Hu as [->|Hu]; [simpl in Hser; lia|by apply Hs].
  - split; [by rewrite nextSerial_update|].
    rewrite toasts_update. intros u (u' & -> & Hu')%list_elem_of_fmap.
    destruct (decide _); [simpl|]; by apply Hs.
  - destruct (dismiss_fields i s) as (Ht & _ & _ & _ & _ & Hn & _).
    split; [by rewrite Hn|]. rewrite Ht.
    intros u (u' & -> & Hu')%list_elem_of_fmap.
    destruct (decide _); [done|]. by apply Hs.
  - split; [done|]. by intros u ?%elem_of_nil.
  - by apply settled_tick.
  - unfold advance.
    destruct (run_invariant (settled v) (Some (clock s + dt))) with (s := s) as [Hr _];
      [intros s' t q Hs' _ _; by apply settled_tick|done|].
    done.
Qed.

(** X10: removing is final. An entry that is removing in a reachable state
    is removing in every later state in which it is still listed, whatever
    commands are issued and whatever timeouts fire: no [update], no second
    [dismiss] and no [create] brings it back. *)
Theorem removing_is_final config s t es :
  reachable config s → t ∈ toasts s → toast_removing t = true →
  ∀ t', t' ∈ toasts (apply_all config es s) →
        toast_serial t' = toast_serial t → toast_removing t' = true.
Proof.
  intros [_ [Hser Hnd _ _ _]]%reachable_wf Ht Hrem.
  assert (settled (toast_serial t) s) as Hs.
  { split; [rewrite Forall_forall in Hser; by apply Hser|].
    intros u Hu Heq. by rewrite (serial_inj _ u t Hnd Hu Ht Heq). }
  clear -Hs. revert s Hs.
  induction es as [|e es IH]; intros s Hs; [apply Hs|].
  simpl. apply IH. by apply settled_apply.
Qed.

Lemma removing_is_final_witness :
  reachable DEFAULT_CONFIG sample_dismissed ∧
  mark_removing (new_toast DEFAULT_CONFIG 7%nat sample_options "r" init)
    ∈ toasts sample_dismissed ∧
  toast_removing (mark_removing (new_toast DEFAULT_CONFIG 7%nat sample_options "r" init))
    = true ∧
  ∀ t', t' ∈ toasts (apply_all DEFAULT_CONFIG
                       [EUpdate "a" 8%nat (with_duration 5000); EAdvance 100]
                       sample_dismissed) →
        toast_serial t' = 0%nat → toast_removing t' = true.
Proof.
  assert (reachable DEFAULT_CONFIG sample_dismissed) as H
    by apply reach_step, reach_step, reach_init.
  assert (mark_removing (new_toast DEFAULT_CONFIG 7%nat sample_options "r" init)
            ∈ toasts sample_dismissed) as Hin by (vm_compute; by left).
  split; [exact H|]. split; [exact Hin|]. split; [reflexivity|].
  exact (removing_is_final DEFAULT_CONFIG sample_dismissed _
           [EUpdate "a" 8%nat (with_duration 5000); EAdvance 100] H Hin eq_refl).
Defined.

Lemma dropped_log v (l : list Toast) (log : list CloseEvent) :
  (∀ t, t ∈ l → toast_serial t ≠ v) →
  (∀ ev, ev ∈ log → ∃ t, t ∈ l ∧ ev.1 = toast_serial t) →
  filter (λ e : CloseEvent, e.1 = v) log = [].
Proof.
  intros Hl Hlog. apply filter_serial_none.
  intros ev (t & Ht & ->)%Hlog. by apply Hl.
Qed.

Lemma dropped_tick v s : dropped v s → dropped v (tick s).
Proof.
  intros (Hlt & Hl & Hlog). split; [by rewrite nextSerial_tick|].
  unfold tick. destruct (queue s) as [|t q]; [done|]. unfold fire.
  set (p := set_clock _ (set_queue q s)).
  destruct (timer_kind t).
  - destruct (dismiss_fields (timer_id t) p) as (-> & _ & _ & _ & _ & _ & ->).
    split; [|done].
    intros u (u' & -> & Hu')%list_elem_of_fmap.
    destruct (decide _); simpl; by apply Hl.
  - destruct (purge_fields (timer_id t) p) as (-> & -> & _).
    split; [intros u [_ Hu]%list_elem_of_filter; by apply Hl|].
    rewrite filter_app. simpl closed. rewrite Hlog, app_nil_l.
    apply (dropped_log v (toasts s)); [done|].
    intros ev (u & Hu & _ & Hser)%elem_of_purge_log. by exists u.
Qed.

Lemma dropped_apply config e v s : dropped v s → dropped v (apply config e s).
Proof.
  intros (Hlt & Hl & Hlog). destruct e as [m o rnd|i m o|i| | |dt]; cbn [apply].
  - split; [rewrite nextSerial_createToast; lia|].
    destruct (createToast_frame config m o rnd s) as [-> _]. split; [|done].
    rewrite toasts_createToast. intros u Hu.
    eapply elem_of_submseteq in Hu; [|apply insert_toast_submseteq].
    apply elem_of_cons in Hu as [->|Hu]; [simpl; lia|by apply Hl].
  - split; [by rewrite nextSerial_update|].
    rewrite toasts_update, closed_update. split; [|done].
    intros u (u' & -> & Hu')%list_elem_of_fmap.
    destruct (decide _); simpl; by apply Hl.
  - destruct (dismiss_fields i s) as (Ht & _ & _ & _ & _ & Hn & Hc).
    split; [by rewrite Hn|]. rewrite Ht, Hc. split; [|done].
    intros u (u' & -> & Hu')%list_elem_of_fmap.
    destruct (decide _); simpl; by apply Hl.
  - split; [done|]. split; [by intros u ?%elem_of_nil|].
    unfold dismissAll. simpl. rewrite filter_app, Hlog, app_nil_l.
    apply (dropped_log v (toasts s)); [done|].
    intros ev (u & Hu & _ & Hser)%elem_of_close_events. by exists u.
  - by apply dropped_tick.
  - unfold advance.
    destruct (run_invariant (dropped v) (Some (clock s + dt))) with (s := s) as [Hr _];
      [intros s' t q Hs' _ _; by apply dropped_tick|done|].
    done.
Qed.

Lemma dropped_apply_all config es v s :
  dropped v s → dropped v (apply_all config es s).
Proof.
  revert s. induction es as [|e es IH]; intros s Hs; [done|].
  simpl. apply IH. by apply dropped_apply.
Qed.

(** X11: eviction is silent for good. An entry that a [createToast] pushes
    out of the list never has its [onClose] called afterwards and never comes
    back, whatever commands are issued and whatever timeouts fire later. *)
Theorem evicted_never_closed config s m o rnd e es :
  reachable config s → e ∈ toasts s →
  (∀ t, t ∈ toasts (createToast config m o rnd s).2 → toast_serial t ≠ toast_serial e) →
  let s' := apply_all config es (createToast config m o rnd s).2 in
  close_count (toast_serial e) s' = 0%nat ∧
  ∀ t, t ∈ toasts s' → toast_serial t ≠ toast_serial e.
Proof.
  intros [_ [Hser _ _ Hgone _]]%reachable_wf He Hout s'.
  assert (dropped (toast_serial e) (createToast config m o rnd s).2) as Hd.
  { split; [|split; [done|]].
    - rewrite nextSerial_createToast. rewrite Forall_forall in Hser.
      specialize (Hser e He). lia.
    - destruct (createToast_frame config m o rnd s) as [-> _].
      apply filter_serial_none. intros ev Hev. by apply Hgone. }
  destruct (dropped_apply_all config es _ _ Hd) as (_ & Hl & Hlog).
  split; [|done]. unfold close_count, s'. by rewrite Hlog.
Qed.

Lemma evicted_never_closed_witness :
  let s := apply single_config (ECreate 7%nat sample_options "r") init in
  let e := new_toast single_config 7%nat sample_options "r" init in
  reachable single_config s ∧ e ∈ toasts s ∧
  (∀ t, t ∈ toasts (createToast single_config 8%nat no_options "q" s).2 →
        toast_serial t ≠ toast_serial e) ∧
  close_count (toast_serial e)
    (apply_all single_config [EDismissAll; EAdvance 5000]
       (createToast single_config 8%nat no_options "q" s).2) = 0%nat.
Proof.
  intros s e.
  assert (reachable single_config s) as H by apply reach_step, reach_init.
  assert (e ∈ toasts s) as Hin by (vm_compute; by left).
  assert (∀ t, t ∈ toasts (createToast single_config 8%nat no_options "q" s).2 →
               toast_serial t ≠ toast_serial e) as Hout.
  { intros t Ht. vm_compute in Ht. apply list_elem_of_singleton in Ht. by subst t. }
  split; [exact H|]. split; [exact Hin|]. split; [exact Hout|].
  exact (proj1 (evicted_never_closed single_config s 8%nat no_options "q" e
                  [EDismissAll; EAdvance 5000] H Hin Hout)).
Defined.

(** ** Where [onClose] calls come from *)

Lemma closes_leavers_none s s' : closed s' = closed s → closes_leavers s s'.
Proof.
  intros Hc. exists []. split; [by rewrite app_nil_r|]. by intros ev ?%elem_of_nil.
Qed.

Lemma descends_fmap (f : Toast → Toast) s s' :
  (∀ t, toast_serial (f t) = toast_serial t ∧ toast_onClose (f t) = toast_onClose t) →
  toasts s' = f <$> toasts s → descends s s'.
Proof.
  intros Hf Ht t'. rewrite Ht. intros (t & -> & Hin)%list_elem_of_fmap.
  exists t. by destruct (Hf t) as [-> ->].
Qed.

Lemma tick_closes_leavers s :
  entries_ok s → closes_leavers s (tick s) ∧ descends s (tick s).
Proof.
  intros [_ Hnd _ _ _]. unfold tick.
  destruct (queue s) as [|t q]; [split; [by apply closes_leavers_none|]|].
  { intros t' Ht'. by exists t'. }
  unfold fire. set (p := set_clock _ (set_queue q s)).
  destruct (timer_kind t).
  - destruct (dismiss_fields (timer_id t) p) as (Ht & _ & _ & _ & _ & _ & Hc).
    split; [by apply closes_leavers_none|].
    apply (descends_fmap
             (λ u, if decide (toast_id u = timer_id t) then mark_removing u else u));
      [|exact Ht].
    intros u. by destruct (decide _).
  - destruct (purge_fields (timer_id t) p) as (Ht & Hc & _). split.
    + exists (purge_log (timer_id t) (toasts s)). split; [done|].
      intros ev (e & Hfind & Hser & Hcb)%elem_of_purge_log_first.
      pose proof (find_id_Some _ _ _ Hfind) as [He Hid].
      split; [by exists e|].
      rewrite Ht. intros t' [Hne Hin]%list_elem_of_filter Heq.
      apply Hne. rewrite <- Hid. f_equal.
      eapply serial_inj; [done..|]. congruence.
    + intros t'. rewrite Ht. intros [_ Hin]%list_elem_of_filter. by exists t'.
Qed.

Lemma closes_leavers_trans s1 s2 s3 :
  closes_leavers s1 s2 → descends s1 s2 →
  closes_leavers s2 s3 → descends s2 s3 →
  closes_leavers s1 s3 ∧ descends s1 s3.
Proof.
  intros (l1 & Hc1 & Hl1) Hd1 (l2 & Hc2 & Hl2) Hd2. split.
  - exists (l1 ++ l2). split; [by rewrite Hc2, Hc1, app_assoc|].
    intros ev [Hev|Hev]%elem_of_app.
    + destruct (Hl1 ev Hev) as [Hfrom Hout]. split; [done|].
      intros t3 (t2 & Ht2 & Hser & _)%Hd2. rewrite <- Hser. by apply Hout.
    + destruct (Hl2 ev Hev) as [(t2 & Ht2 & Hser & Hcb) Hout]. split; [|done].
      destruct (Hd1 t2 Ht2) as (t1 & Ht1 & Hser1 & Hcb1).
      exists t1. split; [done|]. split; congruence.
  - intros t3 (t2 & Ht2 & Hser & Hcb)%Hd2.
    destruct (Hd1 t2 Ht2) as (t1 & Ht1 & Hser1 & Hcb1).
    exists t1. split; [done|]. split; congruence.
Qed.

Lemma run_closes_leavers lim s :
  wf s → closes_leavers s (run lim s) ∧ descends s (run lim s).
Proof.
  intros Hwf.
  destruct (run_invariant
    (λ s', wf s' ∧ closes_leavers s s' ∧ descends s s') lim) with (s := s)
    as [(_ & ? & ?) _]; [| |done].
  - intros s' t q (Hwf' & Hc & Hd) _ _. split; [by apply wf_tick|].
    destruct (tick_closes_leavers s' (proj2 Hwf')) as [Hc' Hd'].
    by apply (closes_leavers_trans s s' (tick s')).
  - split; [done|]. split; [by apply closes_leavers_none|].
    intros t' Ht'. by exists t'.
Qed.

(** X12: [onClose] runs only for an entry on its way out. Whatever event
    happens in a reachable state, each [onClose] call made is the current
    callback of an entry that was in the list before the event and is not in
    the list after it; [createToast], [update] and [dismiss] themselves make
    no call at all. *)
Theorem onClose_only_when_leaving config s e :
  reachable config s →
  closes_leavers s (apply config e s) ∧
  match e with
  | ECreate _ _ _ | EUpdate _ _ _ | EDismiss _ => closed (apply config e s) = closed s
  | _ => True
  end.
Proof.
  intros Hwf%reachable_wf.
  destruct e as [m o rnd|i m o|i| | |dt]; cbn [apply].
  - destruct (createToast_frame config m o rnd s) as [Hc _].
    split; [by apply closes_leavers_none|done].
  - split; [apply closes_leavers_none|]; apply closed_update.
  - destruct (dismiss_fields i s) as (_ & _ & _ & _ & _ & _ & Hc).
    split; [by apply closes_leavers_none|done].
  - split; [|done]. exists (close_events (toasts s)). split; [done|].
    intros ev (t & Ht & Hcb & Hser)%elem_of_close_events.
    split; [by exists t|]. by intros t' ?%elem_of_nil.
  - split; [|done]. by apply tick_closes_leavers, Hwf.
  - split; [|done].
    destruct (run_closes_leavers (Some (clock s + dt)) s Hwf) as [Hc _].
    exact Hc.
Qed.

Lemma onClose_only_when_leaving_witness :
  reachable DEFAULT_CONFIG sample_dismissed ∧
  closes_leavers sample_dismissed (apply DEFAULT_CONFIG (EAdvance 300) sample_dismissed).
Proof.
  assert (reachable DEFAULT_CONFIG sample_dismissed) as H
    by apply reach_step, reach_step, reach_init.
  split; [exact H|].
  exact (proj1 (onClose_only_when_leaving DEFAULT_CONFIG sample_dismissed (EAdvance 300) H)).
Defined.

(** ** Rendering: [getPositionStyles], [ToastContainer], [Toaster] *)

(** X13: [getPositionStyles] anchors a container by the row and the column
    of its position: a top position sets [top] and leaves [bottom] unset, a
    bottom position the reverse; a left position sets [left] and aligns to the
    start, a right position sets [right] and aligns to the end, a centre
    position sets [left] to 50% with the centring transform. A coordinate the
    offset lacks is 16. *)
Theorem getPositionStyles_anchors p ox oy :
  let st := getPositionStyles p (ox, oy) in
  let x := default 16 ox in
  let y := default 16 oy in
  (css_top st, css_bottom st) = (if is_top p then (Some y, None) else (None, Some y)) ∧
  (css_left st, css_right st, css_alignItems st, css_transform st) =
    match column p with
    | ColLeft => (Some (Px x), None, Some "flex-start"%string, None)
    | ColRight => (None, Some x, Some "flex-end"%string, None)
    | ColCenter => (Some (Keyword "50%"), None, Some "center"%string,
                    Some "translateX(-50%)"%string)
    end.
Proof. destruct p; split; reflexivity. Qed.

Lemma elem_of_unique_from {A} `{EqDecision A} (seen l : list A) a :
  a ∈ unique_from seen l ↔ a ∈ l ∧ a ∉ seen.
Proof.
  revert seen. induction l as [|b l IH]; intros seen; simpl.
  - split; [by intros ?%elem_of_nil|by intros [?%elem_of_nil _]].
  - destruct (decide (b ∈ seen)) as [Hb|Hb].
    + rewrite IH, elem_of_cons. split; [tauto|].
      intros [[->|?] ?]; [done|tauto].
    + rewrite elem_of_cons, IH, !elem_of_cons. split.
      * intros [->|[? Hn]]; [tauto|]. split; [tauto|]. tauto.
      * intros [[->|?] Hn]; [tauto|].
        destruct (decide (a = b)) as [->|Hne]; [tauto|]. right. split; [done|].
        intros [?|?]; tauto.
Qed.

Lemma NoDup_unique_from {A} `{EqDecision A} (seen l : list A) :
  NoDup (unique_from seen l).
Proof.
  revert seen. induction l as [|b l IH]; intros seen; simpl; [constructor|].
  destruct (decide (b ∈ seen)); [apply IH|].
  apply NoDup_cons. split; [|apply IH].
  rewrite elem_of_unique_from. intros [_ Hn]. apply Hn. by left.
Qed.

Lemma slot_partition (ps : list ToastPosition) (l : list Toast) :
  NoDup ps → (∀ t, t ∈ l → toast_position t ∈ ps) →
  mjoin ((λ p, filter (λ t, toast_position t = p) l) <$> ps) ≡ₚ l.
Proof.
  intros Hnd. revert l. induction Hnd as [|p ps Hp _ IH]; intros l Hl.
  - destruct l as [|t l]; [done|]. specialize (Hl t ltac:(by left)).
    by apply elem_of_nil in Hl.
  - rewrite fmap_cons. simpl.
    etrans; [|apply (filter_app_complement (λ t, toast_position t = p) l)].
    f_equiv.
    etrans; [|apply (IH (filter (λ t, ¬ toast_position t = p) l))].
    + apply reflexive_eq. f_equal. apply list_fmap_ext. intros _ p' Hp'%list_elem_of_lookup_2.
      rewrite list_filter_filter. apply list_filter_iff. intros t. split; [|tauto].
      intros Heq. split; [done|]. intros Heq'. apply Hp. congruence.
    + intros t [Hne Ht]%list_elem_of_filter.
      specialize (Hl t Ht). apply elem_of_cons in Hl as [?|?]; done.
Qed.

Lemma ToastContainer_slot config p l :
  p ∈ toast_position <$> l →
  ToastContainer config (Some p) l =
  Some (mkView p (getPositionStyles p (Some (offset config).1, Some (offset config).2))
          (gap config) (filter (λ t, toast_position t = p) l)).
Proof.
  intros (t & -> & Ht)%list_elem_of_fmap. unfold ToastContainer.
  assert (filter (shown_in (Some (toast_position t))) l =
          filter (λ u, toast_position u = toast_position t) l) as -> by done.
  rewrite decide_False; [done|].
  assert (t ∈ filter (λ u, toast_position u = toast_position t) l) as Hin
    by (by apply list_elem_of_filter).
  destruct (filter _ l); [by apply elem_of_nil in Hin|done].
Qed.

Lemma omap_id_Some {A B} (f : A → B) (l : list A) :
  omap id ((λ a, Some (f a)) <$> l) = f <$> l.
Proof.
  induction l as [|a l IH]; [done|].
  rewrite !fmap_cons. change (f a :: omap id ((λ a, Some (f a)) <$> l) = f a :: (f <$> l)).
  by rewrite IH.
Qed.

(** X14: [Toaster] shows every entry exactly once. It renders one container
    per position in use, none of them empty or [null], no two for the same
    position, each holding the entries of its position in list order; all
    containers together hold the entries of the list, each once. A
    [ToastContainer] for a position nobody uses renders [null]. *)
Theorem Toaster_shows_every_toast_once config l :
  let views := omap id (Toaster config l) in
  length views = length (Toaster config l) ∧
  NoDup (view_position <$> views) ∧
  (∀ v, v ∈ views →
        view_items v = filter (λ t, toast_position t = view_position v) l ∧
        view_items v ≠ []) ∧
  mjoin (view_items <$> views) ≡ₚ l ∧
  (∀ p, p ∉ toast_position <$> l → ToastContainer config (Some p) l = None).
Proof.
  set (ps := unique_from [] (toast_position <$> l)).
  set (view := λ p, mkView p
    (getPositionStyles p (Some (offset config).1, Some (offset config).2))
    (gap config) (filter (λ t, toast_position t = p) l)).
  assert (∀ p, p ∈ ps → p ∈ toast_position <$> l) as Hps
    by (intros p [? _]%elem_of_unique_from; done).
  assert (Toaster config l = (λ p, Some (view p)) <$> ps) as HT.
  { unfold Toaster. fold ps. apply list_fmap_ext.
    intros _ p Hp%list_elem_of_lookup_2. by apply ToastContainer_slot, Hps. }
  assert (omap id (Toaster config l) = view <$> ps) as Hviews.
  { rewrite HT. apply omap_id_Some. }
  intros views. unfold views. rewrite Hviews.
  split; [by rewrite HT, !length_fmap|]. split; [|split; [|split]].
  - rewrite <- list_fmap_compose.
    assert (view_position ∘ view <$> ps = ps) as ->; [|apply NoDup_unique_from].
    apply list_fmap_id.
  - intros v (p & -> & Hp)%list_elem_of_fmap. split; [done|]. simpl.
    apply Hps, list_elem_of_fmap in Hp as (t & -> & Ht).
    intros Hnil.
    assert (t ∈ filter (λ u, toast_position u = toast_position t) l) as Hin
      by (by apply list_elem_of_filter).
    rewrite Hnil in Hin. by apply elem_of_nil in Hin.
  - rewrite <- list_fmap_compose.
    apply slot_partition; [apply NoDup_unique_from|].
    intros t Ht. apply elem_of_unique_from. split; [by apply list_elem_of_fmap_2|].
    by intros ?%elem_of_nil.
  - intros p Hp. unfold ToastContainer. rewrite decide_True; [done|].
    assert (filter (shown_in (Some p)) l = []) as ->; [|done].
    apply filter_none. rewrite Forall_forall. intros t Ht Heq. apply Hp.
    simpl in Heq. subst p. by apply list_elem_of_fmap_2.
Qed.

Example Toaster_demo :
  let mk p := mkOptions None None None (Some p) None None None None None None in
  let s := apply_all DEFAULT_CONFIG
             [ECreate 1%nat (mk top_left) "a"; ECreate 2%nat (mk bottom_right) "b";
              ECreate 3%nat (mk top_left) "c"] init in
  (λ v, (view_position v, toast_message <$> view_items v)) <$>
    omap id (Toaster DEFAULT_CONFIG (toasts s)) =
  [(top_left, [3; 1]%nat); (bottom_right, [2%nat])] ∧
  ToastContainer DEFAULT_CONFIG (Some top_center) (toasts s) = None ∧
  (view_position <$> ToastContainer DEFAULT_CONFIG None (toasts s)) = Some top_left.
Proof. vm_compute. repeat split; reflexivity. Qed.

(** ** What [update] does with [position] and [id] *)

Lemma slot_after_update x m o p (l : list Toast) :
  opt_position o = Some p →
  length (filter (λ t, toast_position t = p)
            ((λ t, if decide (toast_id t = x) then merge t m o else t) <$> l)) =
  (length (filter (λ t, toast_position t = p) l) +
   length (filter (λ t, toast_id t = x ∧ toast_position t ≠ p) l))%nat.
Proof.
  intros Hp. induction l as [|t l IH]; [done|].
  rewrite fmap_cons. destruct (decide (toast_id t = x)) as [Hx|Hx].
  - rewrite filter_cons_True by (simpl; by rewrite Hp).
    destruct (decide (toast_position t = p)) as [Ht|Ht].
    + rewrite (filter_cons_True _ t l) by done.
      rewrite (filter_cons_False _ t l) by tauto. simpl. lia.
    + rewrite (filter_cons_False _ t l) by done.
      rewrite (filter_cons_True _ t l) by done. simpl. lia.
  - rewrite (filter_cons_False (λ t, toast_id t = x ∧ _) t l) by tauto.
    destruct (decide (toast_position t = p)) as [Ht|Ht].
    + rewrite !filter_cons_True by done. simpl. lia.
    + rewrite !filter_cons_False by done. lia.
Qed.

(** X15: [update] applies no limit. An [update] whose options carry a
    [position] moves every entry of the id into that slot: the slot grows by
    the entries of the id that were elsewhere, nothing leaves the list, no
    [onClose] runs, so a slot that held [maxToasts] entries holds more than
    [maxToasts] afterwards. *)
Theorem update_position_ignores_limit config s x e m o p :
  e ∈ toasts s → toast_id e = x → toast_position e ≠ p →
  opt_position o = Some p →
  let s1 := update x m o s in
  length (toasts s1) = length (toasts s) ∧
  closed s1 = closed s ∧
  length (bucket p s1) =
    (length (bucket p s) +
     length (filter (λ t, toast_id t = x ∧ toast_position t ≠ p) (toasts s)))%nat ∧
  (length (bucket p s) < length (bucket p s1))%nat ∧
  (Z.of_nat (length (bucket p s)) = maxToasts config →
   maxToasts config < Z.of_nat (length (bucket p s1))).
Proof.
  intros He Hx Hpos Hp s1.
  assert (length (bucket p s1) =
    (length (bucket p s) +
     length (filter (λ t, toast_id t = x ∧ toast_position t ≠ p) (toasts s)))%nat) as Hlen.
  { unfold bucket, s1. rewrite toasts_update. by apply slot_after_update. }
  assert (e ∈ filter (λ t, toast_id t = x ∧ toast_position t ≠ p) (toasts s)) as Hin
    by (by apply list_elem_of_filter).
  assert (0 < length (filter (λ t, toast_id t = x ∧ toast_position t ≠ p) (toasts s)))%nat
    as Hpos' by (destruct (filter _ (toasts s)); [by apply elem_of_nil in Hin|simpl; lia]).
  split; [unfold s1; by rewrite toasts_update, length_fmap|].
  split; [apply closed_update|]. split; [done|]. split; lia.
Qed.

Lemma update_position_ignores_limit_witness :
  let mk p i := mkOptions None None None (Some p) None None None None None (Some i) in
  let s := apply_all single_config
             [ECreate 1%nat (mk top_right "a"%string) "r";
              ECreate 2%nat (mk top_left "b"%string) "r"] init in
  let s1 := update "b" 3%nat (mk top_right "b"%string) s in
  (∃ e, e ∈ toasts s ∧ toast_id e = "b"%string ∧ toast_position e ≠ top_right) ∧
  Z.of_nat (length (bucket top_right s)) = maxToasts single_config ∧
  maxToasts single_config < Z.of_nat (length (bucket top_right s1)).
Proof.
  intros mk s s1.
  assert (∃ e, e ∈ toasts s ∧ toast_id e = "b"%string ∧ toast_position e ≠ top_right)
    as (e & He & Hid & Hpos).
  { eexists. split; [vm_compute; by left|]. split; [reflexivity|discriminate]. }
  assert (Z.of_nat (length (bucket top_right s)) = maxToasts single_config) as Hfull
    by (vm_compute; reflexivity).
  split; [by exists e|]. split; [exact Hfull|].
  exact (proj2 (proj2 (proj2 (proj2 (update_position_ignores_limit single_config s "b" e
    3%nat (mk top_right "b"%string) top_right He Hid Hpos eq_refl)))) Hfull).
Defined.

Lemma find_renamed x y m o (l : list Toast) e :
  opt_id o = Some y →
  find (λ t, bool_decide (toast_id t = x)) l = Some e →
  (∀ t, t ∈ l → toast_id t ≠ y) →
  find (λ t, bool_decide (toast_id t = y))
    ((λ t, if decide (toast_id t = x) then merge t m o else t) <$> l) = Some (merge e m o).
Proof.
  intros Hy. induction l as [|t l IH]; [done|]. intros Hfind Hl.
  rewrite fmap_cons. simpl in Hfind |- *. case_bool_decide as Hx.
  - injection Hfind as ->. rewrite decide_True by done.
    rewrite bool_decide_eq_true_2; [done|]. simpl. by rewrite Hy.
  - rewrite decide_False by done.
    rewrite bool_decide_eq_false_2 by (apply Hl; by left).
    apply IH; [done|]. intros t' Ht'. apply Hl. by right.
Qed.

(** X16: an [update] that changes the [id] strands the entry. When the
    options carry an [id] that is new to the list and to the pending timeouts
    (and no [duration]), the entry goes on under the new id while queue and
    timer map stay as they were, still keyed by the old id: however much time
    passes, and even after every pending timeout has run, the entry is listed
    under the new id, not removing, and its [onClose] has not run. *)
Theorem update_id_strands_entry config s x y e m o :
  reachable config s →
  find (λ t, bool_decide (toast_id t = x)) (toasts s) = Some e →
  toast_removing e = false →
  opt_id o = Some y → opt_duration o = None →
  y ∉ ids s → (∀ t, t ∈ queue s → timer_id t ≠ y) →
  let u := toast_serial e in
  let cb := or_else (opt_onClose o) (toast_onClose e) in
  let s1 := update x m o s in
  queue s1 = queue s ∧ timersRef s1 = timersRef s ∧
  (∀ dt, (∃ e', e' ∈ toasts (advance dt s1) ∧ toast_id e' = y ∧ toast_serial e' = u ∧
                toast_removing e' = false ∧ toast_onClose e' = cb) ∧
         filter (λ ev : CloseEvent, ev.1 = u) (closed (advance dt s1)) = []) ∧
  (∃ e', e' ∈ toasts (flush s1) ∧ toast_id e' = y ∧ toast_serial e' = u ∧
         toast_removing e' = false ∧ toast_onClose e' = cb) ∧
  filter (λ ev : CloseEvent, ev.1 = u) (closed (flush s1)) = [].
Proof.
  intros Hreach Hfind Hrem Hy Hod Hnew Hq u cb s1.
  pose proof (reachable_wf config s Hreach) as [_ [_ Hnd _ Hgone _]].
  pose proof (find_id_Some x _ _ Hfind) as [Hin Hid].
  assert (∀ t, t ∈ toasts s → toast_id t ≠ y) as Hl.
  { intros t Ht Heq. apply Hnew. unfold ids. rewrite <- Heq. by apply list_elem_of_fmap_2. }
  assert (s1 = set_toasts
    ((λ t, if decide (toast_id t = x) then merge t m o else t) <$> toasts s) s) as Hs1
    by (unfold s1, update; by rewrite Hod).
  assert (idle y u cb s1) as Hidle.
  { rewrite Hs1. split; [split; [|split]|].
    - exists (merge e m o). simpl toasts.
      rewrite (find_renamed x y m o (toasts s) e Hy Hfind Hl).
      repeat split; try done. unfold cb. simpl. by destruct (opt_onClose o).
    - simpl toasts. intros v (v' & -> & Hv')%list_elem_of_fmap Hser.
      assert (v' = e) as ->.
      { eapply serial_inj; [done..|]. by destruct (decide _). }
      rewrite decide_True by done. simpl. by rewrite Hy.
    - intros ev Hev. by apply Hgone.
    - done. }
  split; [by rewrite Hs1|]. split; [by rewrite Hs1|]. split.
  - intros dt. rewrite toasts_advance, closed_advance.
    apply (present_elem y u cb false), (idle_run y u _ _ s1 Hidle).
  - apply (present_elem y u cb false), (idle_run y u _ None s1 Hidle).
Qed.

Lemma update_id_strands_entry_witness :
  let o := mkOptions None None None None None None None None None (Some "z"%string) in
  reachable DEFAULT_CONFIG sample_created ∧
  find (λ t, bool_decide (toast_id t = "a"%string)) (toasts sample_created) =
    Some (new_toast DEFAULT_CONFIG 7%nat sample_options "r" init) ∧
  ("z"%string ∉ ids sample_created) ∧
  (∀ t, t ∈ queue sample_created → timer_id t ≠ "z"%string) ∧
  queue (update "a" 8%nat o sample_created) = queue sample_created ∧
  filter (λ ev : CloseEvent, ev.1 = 0%nat)
    (closed (flush (update "a" 8%nat o sample_created))) = [].
Proof.
  intros o.
  assert (reachable DEFAULT_CONFIG sample_created) as H
    by apply reach_step, reach_init.
  assert (find (λ t, bool_decide (toast_id t = "a"%string)) (toasts sample_created) =
    Some (new_toast DEFAULT_CONFIG 7%nat sample_options "r" init)) as Hfind
    by (vm_compute; reflexivity).
  assert ("z"%string ∉ ids sample_created) as Hnew.
  { intros Hin. vm_compute in Hin. apply list_elem_of_singleton in Hin. discriminate. }
  assert (∀ t, t ∈ queue sample_created → timer_id t ≠ "z"%string) as Hq.
  { intros t Ht. vm_compute in Ht. apply list_elem_of_singleton in Ht. by subst t. }
  split; [exact H|]. split; [exact Hfind|]. split; [exact Hnew|]. split; [exact Hq|].
  pose proof (update_id_strands_entry DEFAULT_CONFIG sample_created "a" "z" _ 8%nat o
                H Hfind eq_refl eq_refl eq_refl Hnew Hq) as (H1 & _ & _ & _ & H2).
  split; [exact H1|exact H2].
Defined.

Example stranded_entry_demo :
  let o := mkOptions None None None None None None None None None (Some "z"%string) in
  let s := flush (update "a" 8%nat o sample_created) in
  (toast_id <$> toasts s, toast_removing <$> toasts s, closed s, queue s) =
  (["z"%string], [false], [], []).
Proof. vm_compute. reflexivity. Qed.
